(** * Privax: commitment tree, withdrawal circuit, reference flow and ledger contract

    A shallow embedding of
    - [circuits/utils/merkleTree.js] and its TypeScript twin (the commitment
      tree and the note hashes),
    - [circuits/circuits/withdraw.circom] (the withdrawal predicate),
    - the reference deposit/withdraw flow written in JavaScript, and
    - the Solidity contract [PrivaxProtocol] with its [MockVerifier],
    together with the properties the specification states about them. *)

From stdpp Require Import base option list gmap strings pretty.
From Stdlib Require Import ZArith Lia DecimalString HexadecimalString.

Open Scope Z_scope.

(** ** Shared vocabulary *)

(** The Poseidon permutation-based hash comes from [circomlibjs] (JavaScript
    side) and from [circomlib/circuits/poseidon.circom] (circuit side).  Both
    are external libraries; the development is parametric in the function they
    compute on a list of field elements. *)
Class Poseidon := poseidon : list Z → Z.

(** JavaScript exceptions raised by the modelled code: [throw new
    Error(message)]; the [TypeError] the engine raises when a property of
    [undefined] is read; a rejected file-system promise; the [SyntaxError]
    and the [RangeError] of a failed conversion by [BigInt]. *)
Inductive Error :=
| JsError (message : string)
| TypeError
| IOError
| SyntaxError
| RangeError.

#[global] Instance Error_eq_dec : EqDecision Error.
Proof. solve_decision. Defined.

(** The values a caller can pass where the code takes an argument as it
    comes: a string, a Number with an integral value, a BigInt, or another
    primitive value ([undefined], [null], a boolean, a Number that is no
    integer), the latter numbered.  [Set.prototype.has] and [add] compare by
    SameValueZero, that is by type and content and without any conversion:
    the string ['22'], the string ['0x16'], the Number [22] and the BigInt
    [22n] are four values. *)
Inductive Value :=
| VString (s : string)
| VNumber (n : Z)
| VBigInt (n : Z)
| VOther (id : positive).

#[global] Instance Value_eq_dec : EqDecision Value.
Proof. solve_decision. Defined.

#[global] Instance Value_countable : Countable Value :=
  inj_countable'
    (λ v, match v with
          | VString s => inl s
          | VNumber n => inr (inl n)
          | VBigInt n => inr (inr (inl n))
          | VOther id => inr (inr (inr id))
          end)
    (λ x, match x with
          | inl s => VString s
          | inr (inl n) => VNumber n
          | inr (inr (inl n)) => VBigInt n
          | inr (inr (inr id)) => VOther id
          end)
    (λ v, match v with
          | VString _ | VNumber _ | VBigInt _ | VOther _ => eq_refl
          end).

(** [poseidon.F.toString(hash)]: the hash in decimal digits, a string. *)
Definition decimal (hash : Z) : Value := VString (pretty hash).

(** The errors the code throws, under the names the specification gives them. *)
Definition TreeFull : Error := JsError "Tree is full".
Definition UnknownLeaf : Error := JsError "Leaf does not exist".
Definition DepositNotFound : Error := JsError "Deposit not found".
Definition NullifierSpent : Error := JsError "Deposit already withdrawn".
Definition InvalidProof : Error := JsError "Invalid proof".

(** A call either returns or throws. *)
Inductive result (A : Type) :=
| Ok (a : A)
| Throw (e : Error).
Arguments Ok {A} a.
Arguments Throw {A} e.

#[global] Instance result_ret : MRet result := λ A a, Ok a.
#[global] Instance result_bind : MBind result := λ A B k r,
  match r with
  | Ok a => k a
  | Throw e => Throw e
  end.

(** [v.toString()] where [v] may be [undefined]. *)
Definition toString (v : option Z) : result Z :=
  match v with
  | Some z => Ok z
  | None => Throw TypeError
  end.

(** ** The commitment tree: [utils/merkleTree.js] and [utils/merkleTree.ts] *)
Module MerkleTree.

(** The two files differ in one respect only.  The constructor stores the
    promise returned by the asynchronous [_calculateZeros] in [this.zeros].
    The TypeScript methods read the table through [await this.zeros]; the
    JavaScript methods index the promise itself, [this.zeros[i]], which is
    [undefined]. *)
Inductive Source := merkleTree_js | merkleTree_ts.

Section WithHash.
Context `{Poseidon}.

(** [toField]: [BigInt(num)], on an argument that is an integer already;
    what [BigInt] does to the other values a caller can pass, and which it
    refuses, is [Untyped.toField]. *)
Definition toField (num : Z) : Z := num.

(** [poseidonHash(inputs)]: hash of the inputs mapped through [toField],
    rendered in decimal (identified with its value). *)
Definition poseidonHash (inputs : list Z) : Z := poseidon (map toField inputs).

Record t := MkTree {
  levels : nat;
  capacity : nat;
  leaves : list Z;
  zeros : list Z;   (* the table the promise in [this.zeros] resolves to *)
  filled : nat
}.

(** [zeros[0] = 0n; zeros[i] = H(zeros[i-1], zeros[i-1])] for [i = 1..levels]. *)
Fixpoint zeros_from (z : Z) (n : nat) : list Z :=
  match n with
  | O => [z]
  | S n' => z :: zeros_from (poseidonHash [z; z]) n'
  end.

Definition _calculateZeros (levels : nat) : list Z := zeros_from 0 levels.

(** [constructor(levels = 20)] *)
Definition new (levels : nat) : t :=
  {| levels := levels;
     capacity := 2 ^ levels;
     leaves := replicate (2 ^ levels) 0;
     zeros := _calculateZeros levels;
     filled := 0 |}.

(** How a method reads entry [i] of the zero table. *)
Definition zerosAt (src : Source) (tr : t) (i : nat) : option Z :=
  match src with
  | merkleTree_ts => zeros tr !! i
  | merkleTree_js => None
  end.

(** [insert(commitment)]: the tree after the call and what the call returns. *)
Definition insert (tr : t) (commitment : Z) : t * result nat :=
  if (capacity tr <=? filled tr)%nat then (tr, Throw TreeFull)
  else
    let pos := filled tr in
    ({| levels := levels tr;
        capacity := capacity tr;
        leaves := <[pos := commitment]> (leaves tr);
        zeros := zeros tr;
        filled := S (filled tr) |}, Ok pos).

(** One iteration of the loop of [generateProof], then the rest: [n]
    iterations remain, [i] is the level. *)
Fixpoint generateProof_loop (src : Source) (tr : t) (n i currentIndex : nat)
    (pathElements pathIndices : list Z) : result (list Z * list Z) :=
  match n with
  | O => Ok (pathElements, pathIndices)
  | S n' =>
    let isRight := (currentIndex mod 2)%nat in
    let siblingIndex :=
      if decide (isRight = 0%nat) then (currentIndex + 1)%nat
      else (currentIndex - 1)%nat in
    let pathIndices' :=
      pathIndices ++ [if decide (isRight = 0%nat) then 1 else 0] in
    let sibling :=
      if (siblingIndex <? filled tr)%nat then leaves tr !! siblingIndex
      else zerosAt src tr i in
    s ← toString sibling ;
    generateProof_loop src tr n' (S i) (currentIndex / 2)%nat
      (pathElements ++ [s]) pathIndices'
  end.

(** [generateProof(index)] returns [{ pathElements, pathIndices }]. *)
Definition generateProof (src : Source) (tr : t) (index : nat)
    : result (list Z * list Z) :=
  if (filled tr <=? index)%nat then Throw UnknownLeaf
  else generateProof_loop src tr (levels tr) 0 index [] [].

(** The inner loop of [getRoot]: [for (i = 0; i < nextLevelSize; i++)],
    writing [hashes[i]] in place; [n] iterations remain. *)
Fixpoint getRoot_inner (src : Source) (tr : t) (level n i : nat)
    (hashes : list Z) : result (list Z) :=
  match n with
  | O => Ok hashes
  | S n' =>
    let left :=
      if (i * 2 <? filled tr)%nat then hashes !! (i * 2)%nat
      else zerosAt src tr level in
    let right :=
      if (i * 2 + 1 <? filled tr)%nat then hashes !! (i * 2 + 1)%nat
      else zerosAt src tr level in
    l ← toString left ;
    r ← toString right ;
    getRoot_inner src tr level n' (S i) (<[i := poseidonHash [l; r]]> hashes)
  end.

(** The outer loop: [for (level = 0; level < this.levels; level++)]. *)
Fixpoint getRoot_outer (src : Source) (tr : t) (n level : nat)
    (hashes : list Z) : result (list Z) :=
  match n with
  | O => Ok hashes
  | S n' =>
    let levelSize := (capacity tr / 2 ^ level)%nat in
    let nextLevelSize := (levelSize / 2)%nat in
    hashes' ← getRoot_inner src tr level nextLevelSize 0 hashes ;
    getRoot_outer src tr n' (S level) hashes'
  end.

(** [getRoot()].  The result is [None] when the call returns [undefined]:
    on an empty tree the JavaScript file returns [this.zeros[this.levels]]
    without converting it. *)
Definition getRoot (src : Source) (tr : t) : result (option Z) :=
  if decide (filled tr = 0%nat) then
    match src with
    | merkleTree_ts => z ← toString (zeros tr !! levels tr) ; Ok (Some z)
    | merkleTree_js => Ok (zerosAt src tr (levels tr))
    end
  else
    hashes ← getRoot_outer src tr (levels tr) 0 (leaves tr) ;
    z ← toString (hashes !! 0%nat) ;
    Ok (Some z).

(** [generateCommitment(amount, secret, nullifierSecret)] *)
Definition generateCommitment (amount secret nullifierSecret : Z) : Z :=
  poseidonHash [amount; secret; nullifierSecret].

(** [generateNullifierHash(nullifierSecret)] *)
Definition generateNullifierHash (nullifierSecret : Z) : Z :=
  poseidonHash [nullifierSecret; 1].

End WithHash.
End MerkleTree.

(** ** The withdrawal predicate: [circuits/withdraw.circom] *)
Module Circuit.

(** Signals live in the scalar field of bn128, circom's default prime. *)
Definition p : Z :=
  21888242871839275222246405745257275088548364400416034343698204186575808495617.

Definition Fadd (a b : Z) : Z := (a + b) mod p.
Definition Fsub (a b : Z) : Z := (a - b) mod p.
Definition Fmul (a b : Z) : Z := (a * b) mod p.

(** [a === b] *)
Definition constrainEq (a b : Z) : bool := bool_decide (a mod p = b mod p).

(** The input signals of [Withdraw(levels)], private ones first. *)
Record Inputs := MkInputs {
  secret : Z;
  nullifierSecret : Z;
  pathElements : list Z;
  pathIndices : list Z;
  merkleRoot : Z;
  nullifierHash : Z;
  recipient : Z;
  amount : Z;
  externalNullifier : Z
}.

Section WithHash.
Context `{Poseidon}.

(** [commitmentHasher = Poseidon(3)] fed with amount, secret, nullifierSecret. *)
Definition calculatedCommitment (inp : Inputs) : Z :=
  poseidon [amount inp; secret inp; nullifierSecret inp].

(** [nullifierHasher = Poseidon(2)] fed with nullifierSecret and the constant 1. *)
Definition calculatedNullifierHash (inp : Inputs) : Z :=
  poseidon [nullifierSecret inp; 1].

(** One level of the Merkle loop: [currentHashes[i+1]] from [currentHashes[i]]. *)
Definition merkleLevelHasher (currentHash pathElement pathIndex : Z) : Z :=
  let leftInput :=
    Fadd (Fmul (Fsub 1 pathIndex) currentHash) (Fmul pathIndex pathElement) in
  let rightInput :=
    Fadd (Fmul pathIndex currentHash) (Fmul (Fsub 1 pathIndex) pathElement) in
  poseidon [leftInput; rightInput].

(** [currentHashes[levels]], starting from [currentHashes[0]]. *)
Fixpoint currentHashes (currentHash : Z) (pathElements pathIndices : list Z) : Z :=
  match pathElements, pathIndices with
  | e :: es, b :: bs => currentHashes (merkleLevelHasher currentHash e b) es bs
  | _, _ => currentHash
  end.

(** [pathIndices[i] * (pathIndices[i] - 1) === 0] *)
Definition binary (pathIndex : Z) : bool :=
  constrainEq (Fmul pathIndex (Fsub pathIndex 1)) 0.

(** All constraints of [Withdraw(levels)] on a full assignment of its inputs. *)
Definition Withdraw (levels : nat) (inp : Inputs) : bool :=
  bool_decide (length (pathElements inp) = levels)
  && bool_decide (length (pathIndices inp) = levels)
  && constrainEq (nullifierHash inp) (calculatedNullifierHash inp)
  && forallb binary (pathIndices inp)
  && constrainEq (merkleRoot inp)
       (currentHashes (calculatedCommitment inp) (pathElements inp) (pathIndices inp)).

End WithHash.
End Circuit.

(** ** The ledger contract: [PrivaxProtocol.sol] and [MockVerifier.sol] *)
Module PrivaxProtocol.

(** [address] is a 160-bit and [uint256] a 256-bit unsigned integer;
    [bytes32] values are identified with the [uint256] of the same bits. *)
Abbreviation address := Z (only parsing).
Abbreviation uint256 := Z (only parsing).

Definition is_address (a : Z) : Prop := 0 ≤ a < 2 ^ 160.

(** [uint256(uint160(a))] *)
Definition uint160 (a : Z) : Z := a mod 2 ^ 160.

(** Why a call reverted: a failed [require] with its reason string, the
    checked-arithmetic panic of Solidity 0.8, an array index out of bounds,
    or a revert inside a contract that was called. *)
Inductive Failure :=
| Require (reason : string)
| PanicOverflow
| PanicIndex
| CallReverted.

Inductive Outcome (A : Type) :=
| Success (a : A)
| Revert (f : Failure).
Arguments Success {A} a.
Arguments Revert {A} f.

#[global] Instance Outcome_ret : MRet Outcome := λ A a, Success a.
#[global] Instance Outcome_bind : MBind Outcome := λ A B k r,
  match r with
  | Success a => k a
  | Revert f => Revert f
  end.

(** [require(cond, reason)] *)
Definition require (cond : bool) (reason : string) : Outcome unit :=
  if cond then Success () else Revert (Require reason).

(** [xs[i]] on a dynamic array *)
Definition index (xs : list Z) (i : nat) : Outcome Z :=
  match xs !! i with
  | Some x => Success x
  | None => Revert PanicIndex
  end.

(** [x + y] on [uint256] *)
Definition checked_add (x y : Z) : Outcome Z :=
  if 2 ^ 256 <=? x + y then Revert PanicOverflow else Success (x + y).

(** [IVerifier]: the Groth16 verifier, an external contract. *)
Class IVerifier :=
  verifyProof : Z * Z → (Z * Z) * (Z * Z) → Z * Z → list Z → bool.

(** [MockVerifier]: answers with its stored [_verificationResult]. *)
Definition MockVerifier (_verificationResult : bool) : IVerifier :=
  λ _ _ _ _, _verificationResult.

(** [IERC20]: the token, an external contract with a storage of its own.
    [transfer] and [transferFrom] take the caller first and give the token's
    storage after the call, or [None] when the call reverts; the boolean they
    return is not looked at by [PrivaxProtocol]. *)
Class IERC20 := {
  Token : Type;
  balanceOf : Token → address → uint256;
  transfer : Token → address → address → uint256 → option Token;
  transferFrom : Token → address → address → address → uint256 → option Token
}.

Inductive Event :=
| AdminChanged (oldAdmin newAdmin : address)
| RelayerAdded (relayerAddress : address)
| RelayerRemoved (relayerAddress : address)
| DepositOccurred (user tokenAddress : address) (amount : uint256) (commitment : Z)
| WithdrawalOccurred (nullifierHash : Z) (recipient tokenAddress : address)
    (amount : uint256).

#[global] Instance Event_eq_dec : EqDecision Event.
Proof. solve_decision. Defined.

(** The storage of the contract. *)
Record Storage := MkStorage {
  admin : address;
  whitelistedRelayers : gmap Z bool
}.

Section Contract.
Context {V : IVerifier} {T : IERC20}.

(** [address(this)] and [address(token)] *)
Variables (this tokenAddress : address).

(** What a transaction sees and may change: the contract's storage and the
    token's. *)
Record World := MkWorld {
  storage : Storage;
  token : Token
}.

Definition REQUIRED_PUBLIC_INPUTS_COUNT : nat := 5.

Definition isRelayer (w : World) (_address : address) : bool :=
  default false (whitelistedRelayers (storage w) !! _address).

Definition addRelayer (w : World) (sender _relayerAddress : address)
    : Outcome (World * list Event) :=
  _ ← require (bool_decide (sender = admin (storage w)))
        "Privax: Caller is not the admin";
  _ ← require (negb (bool_decide (_relayerAddress = 0)))
        "Privax: Invalid relayer address";
  _ ← require (negb (isRelayer w _relayerAddress))
        "Privax: Relayer already whitelisted";
  Success
    (MkWorld
       (MkStorage (admin (storage w))
          (<[_relayerAddress := true]> (whitelistedRelayers (storage w))))
       (token w),
     [RelayerAdded _relayerAddress]).

Definition removeRelayer (w : World) (sender _relayerAddress : address)
    : Outcome (World * list Event) :=
  _ ← require (bool_decide (sender = admin (storage w)))
        "Privax: Caller is not the admin";
  _ ← require (isRelayer w _relayerAddress) "Privax: Relayer not whitelisted";
  Success
    (MkWorld
       (MkStorage (admin (storage w))
          (<[_relayerAddress := false]> (whitelistedRelayers (storage w))))
       (token w),
     [RelayerRemoved _relayerAddress]).

Definition transferOwnership (w : World) (sender _newAdmin : address)
    : Outcome (World * list Event) :=
  _ ← require (bool_decide (sender = admin (storage w)))
        "Privax: Caller is not the admin";
  _ ← require (negb (bool_decide (_newAdmin = 0)))
        "Privax: New admin cannot be the zero address";
  Success
    (MkWorld (MkStorage _newAdmin (whitelistedRelayers (storage w))) (token w),
     [AdminChanged (admin (storage w)) _newAdmin]).

(** [deposit(_amount, _commitment)] called by [sender]. *)
Definition deposit (w : World) (sender : address) (_amount : uint256)
    (_commitment : Z) : Outcome (World * list Event) :=
  _ ← require (0 <? _amount) "Privax: Deposit amount must be greater than zero";
  let initialBalance := balanceOf (token w) this in
  match transferFrom (token w) this sender this _amount with
  | None => Revert CallReverted
  | Some token' =>
    let finalBalance := balanceOf token' this in
    expected ← checked_add initialBalance _amount;
    _ ← require (finalBalance =? expected)
          "Privax: Token transfer failed or incorrect amount";
    Success (MkWorld (storage w) token',
             [DepositOccurred sender tokenAddress _amount _commitment])
  end.

(** [withdraw(_a, _b, _c, _publicInputs, _recipient, _amountToWithdraw)]
    called by [sender]. *)
Definition withdraw (w : World) (sender : address)
    (_a : Z * Z) (_b : (Z * Z) * (Z * Z)) (_c : Z * Z)
    (_publicInputs : list Z) (_recipient : address)
    (_amountToWithdraw : uint256) : Outcome (World * list Event) :=
  _ ← require (0 <? _amountToWithdraw)
        "Privax: Withdrawal amount must be greater than zero";
  _ ← require (negb (bool_decide (_recipient = 0)))
        "Privax: Recipient cannot be the zero address";
  _ ← require (bool_decide (length _publicInputs = REQUIRED_PUBLIC_INPUTS_COUNT))
        "Privax: Incorrect number of public inputs";
  recipientInput ← index _publicInputs 2;
  _ ← require (uint160 _recipient =? recipientInput)
        "Privax: Recipient mismatch in proof inputs";
  amountInput ← index _publicInputs 3;
  _ ← require (_amountToWithdraw =? amountInput)
        "Privax: Amount mismatch in proof inputs";
  let isValid := verifyProof _a _b _c _publicInputs in
  _ ← require isValid "Privax: Invalid ZK proof";
  nullifierHash ← index _publicInputs 1;
  let initialRecipientBalance := balanceOf (token w) _recipient in
  match transfer (token w) this _recipient _amountToWithdraw with
  | None => Revert CallReverted
  | Some token' =>
    let finalRecipientBalance := balanceOf token' _recipient in
    expected ← checked_add initialRecipientBalance _amountToWithdraw;
    _ ← require (finalRecipientBalance =? expected)
          "Privax: Token transfer failed or incorrect amount";
    Success (MkWorld (storage w) token',
             [WithdrawalOccurred nullifierHash _recipient tokenAddress
                _amountToWithdraw])
  end.

(** A transaction sent to the contract. *)
Inductive Call :=
| Deposit (sender : address) (_amount : uint256) (_commitment : Z)
| Withdraw (sender : address) (_a : Z * Z) (_b : (Z * Z) * (Z * Z)) (_c : Z * Z)
    (_publicInputs : list Z) (_recipient : address) (_amountToWithdraw : uint256).

Definition call (w : World) (tx : Call) : Outcome (World * list Event) :=
  match tx with
  | Deposit sender amt cm => deposit w sender amt cm
  | Withdraw sender a b c pi rcpt amt => withdraw w sender a b c pi rcpt amt
  end.

(** The chain runs a transaction atomically: a revert undoes every effect. *)
Definition exec (w : World) (tx : Call) : World * Outcome (list Event) :=
  match call w tx with
  | Success (w', events) => (w', Success events)
  | Revert f => (w, Revert f)
  end.

End Contract.

(** A token with the standard behaviour, to run the contract against:
    balances and allowances, transfers that revert when funds or allowance
    are short. *)
Record StdToken := MkStdToken {
  balances : gmap Z Z;
  allowances : gmap (Z * Z) Z
}.

Definition std_balanceOf (tk : StdToken) (a : address) : Z :=
  default 0 (balances tk !! a).

Definition std_move (tk : StdToken) (from to : address) (amount : Z) : gmap Z Z :=
  let debited := <[from := std_balanceOf tk from - amount]> (balances tk) in
  <[to := default 0 (debited !! to) + amount]> debited.

Definition std_transfer (tk : StdToken) (caller to : address) (amount : Z)
    : option StdToken :=
  if std_balanceOf tk caller <? amount then None
  else Some (MkStdToken (std_move tk caller to amount) (allowances tk)).

Definition std_transferFrom (tk : StdToken) (caller from to : address) (amount : Z)
    : option StdToken :=
  let allowed := default 0 (allowances tk !! (from, caller)) in
  if (allowed <? amount) || (std_balanceOf tk from <? amount) then None
  else Some (MkStdToken (std_move tk from to amount)
               (<[(from, caller) := allowed - amount]> (allowances tk))).

Definition StandardERC20 : IERC20 :=
  {| Token := StdToken;
     balanceOf := std_balanceOf;
     transfer := std_transfer;
     transferFrom := std_transferFrom |}.

End PrivaxProtocol.

(** ** The reference flow: module-level state, [deposit], [withdraw] *)
Module Flow.

(** [snarkjs.groth16.verify], an external library. *)
Class Groth16 := {
  VKey : Type;
  Proof : Type;
  groth16_verify : VKey → list Z → Proof → bool
}.

(** An entry of [deposits], keyed by the commitment. *)
Record DepositInfo := MkDepositInfo {
  index : nat;
  amount : Z;
  secret : Z;
  nullifierSecret : Z;
  nullifierHash : Z;
  recipient : Z;
  timestamp : Z
}.

(** What [deposit] returns. *)
Record DepositData := MkDepositData {
  dd_commitment : Z;
  dd_nullifierHash : Z;
  dd_secret : Z;
  dd_nullifierSecret : Z;
  dd_index : nat
}.

(** What [generateWithdrawalProof] returns and writes to [input.json];
    [ci_merkleRoot] is [None] when [getRoot] returned [undefined]. *)
Record CircuitInputs := MkCircuitInputs {
  ci_secret : Z;
  ci_nullifierSecret : Z;
  ci_pathElements : list Z;
  ci_pathIndices : list Z;
  ci_merkleRoot : option Z;
  ci_nullifierHash : Z;
  ci_recipient : Z;
  ci_amount : Z;
  ci_externalNullifier : Z
}.

(** The three module-level variables: [deposits], [spentNullifiers] and
    [merkleTree], the last undefined until [initialize] has run.  The keys
    of [deposits] are commitments as [generateCommitment] returns them, in
    decimal, and are identified with their numbers.  [spentNullifiers] is a
    [Set] of whatever values [withdraw] was called with. *)
Record State := MkState {
  deposits : gmap Z DepositInfo;
  spentNullifiers : gset Value;
  merkleTree : option MerkleTree.t
}.

Definition initial : State := MkState ∅ ∅ None.

Section WithLibraries.
Context {P : Poseidon} {G : Groth16}.

(** The flow requires [./utils/merkleTree], the JavaScript file. *)
Definition src : MerkleTree.Source := MerkleTree.merkleTree_js.

(** [initialize()]: a fresh tree of depth 20; the root it logs is not kept. *)
Definition initialize (st : State) : State * result unit :=
  let tr := MerkleTree.new 20 in
  (MkState (deposits st) (spentNullifiers st) (Some tr),
   _ ← MerkleTree.getRoot src tr; Ok ()).

(** [deposit(amount, userAddress)].  [rnd] is what the two calls of
    [randomField()] return and [now] what [Date.now()] returns. *)
Definition deposit (st : State) (rnd : Z * Z) (now : Z) (amount userAddress : Z)
    : State * result DepositData :=
  let secret := rnd.1 in
  let nullifierSecret := rnd.2 in
  let commitment := MerkleTree.generateCommitment amount secret nullifierSecret in
  match merkleTree st with
  | None => (st, Throw TypeError)
  | Some tr =>
    match MerkleTree.insert tr commitment with
    | (tr', Throw e) => (MkState (deposits st) (spentNullifiers st) (Some tr'), Throw e)
    | (tr', Ok index) =>
      let nullifierHash := MerkleTree.generateNullifierHash nullifierSecret in
      (MkState
         (<[commitment :=
              MkDepositInfo index amount secret nullifierSecret nullifierHash
                userAddress now]> (deposits st))
         (spentNullifiers st)
         (Some tr'),
       Ok (MkDepositData commitment nullifierHash secret nullifierSecret index))
    end
  end.

(** [generateWithdrawalProof(amount, secret, nullifierSecret, recipient,
    externalNullifier, index)]; [written] tells whether [input.json] could be
    written.  The module state is only read.  What is looked up in
    [spentNullifiers] is the string [generateNullifierHash] returns. *)
Definition generateWithdrawalProof (st : State) (written : bool)
    (amount secret nullifierSecret recipient externalNullifier : Z) (index : nat)
    : result CircuitInputs :=
  let commitment := MerkleTree.generateCommitment amount secret nullifierSecret in
  match deposits st !! commitment with
  | None => Throw DepositNotFound
  | Some _ =>
    let nullifierHash := MerkleTree.generateNullifierHash nullifierSecret in
    if decide (decimal nullifierHash ∈ spentNullifiers st) then Throw NullifierSpent
    else
      match merkleTree st with
      | None => Throw TypeError
      | Some tr =>
        '(pathElements, pathIndices) ← MerkleTree.generateProof src tr index;
        merkleRoot ← MerkleTree.getRoot src tr;
        if written then
          Ok (MkCircuitInputs secret nullifierSecret pathElements pathIndices
                merkleRoot nullifierHash recipient amount externalNullifier)
        else Throw IOError
      end
  end.

(** [withdraw(nullifierHash, proof, publicSignals)]; [vk] is what reading and
    parsing [verification_key.json] gives, [None] when that throws.  The
    nullifier hash is looked up and stored as the caller passes it.  The call
    returns [{ amount, recipient }], entries 3 and 2 of the public signals. *)
Definition withdraw (st : State) (vk : option VKey) (nullifierHash : Value)
    (proof : Proof) (publicSignals : list Z)
    : State * result (option Z * option Z) :=
  if decide (nullifierHash ∈ spentNullifiers st) then (st, Throw NullifierSpent)
  else
    match vk with
    | None => (st, Throw IOError)
    | Some verificationKey =>
      let isValid := groth16_verify verificationKey publicSignals proof in
      if negb isValid then (st, Throw InvalidProof)
      else
        (MkState (deposits st) ({[ nullifierHash ]} ∪ spentNullifiers st)
           (merkleTree st),
         Ok (publicSignals !! 3%nat, publicSignals !! 2%nat))
    end.

(** A call of one of the exported functions. *)
Inductive Op :=
| Initialize
| Deposit (rnd : Z * Z) (now : Z) (amount userAddress : Z)
| GenerateWithdrawalProof (written : bool)
    (amount secret nullifierSecret recipient externalNullifier : Z) (index : nat)
| Withdraw (vk : option VKey) (nullifierHash : Value) (proof : Proof)
    (publicSignals : list Z).

(** The module state after a call, whether it returned or threw. *)
Definition step (st : State) (op : Op) : State :=
  match op with
  | Initialize => (initialize st).1
  | Deposit rnd now amount userAddress => (deposit st rnd now amount userAddress).1
  | GenerateWithdrawalProof _ _ _ _ _ _ _ => st
  | Withdraw vk nullifierHash proof publicSignals =>
    (withdraw st vk nullifierHash proof publicSignals).1
  end.

Definition run (st : State) (ops : list Op) : State := foldl step st ops.

End WithLibraries.

(** A verifier that accepts exactly when the proof says so, to run the flow. *)
Definition toyGroth16 : Groth16 :=
  {| VKey := unit; Proof := bool; groth16_verify := λ _ _ accepted, accepted |}.

End Flow.

(** ** Arguments as the caller passes them *)
Module Untyped.

(** The built-in [BigInt(value)]: the integer the value converts to, or the
    exception of the conversion, a [SyntaxError] for a string that is no
    integer literal, a [RangeError] for a Number that is no integer, a
    [TypeError] for [undefined] and [null].  A BigInt converts to itself and
    a Number with an integral value to that value. *)
Class Conversion := {
  BigInt : Value → result Z;
  BigInt_VBigInt (n : Z) : BigInt (VBigInt n) = Ok n;
  BigInt_VNumber (n : Z) : BigInt (VNumber n) = Ok n;
  BigInt_throws (v : Value) (e : Error) :
    BigInt v = Throw e → e = SyntaxError ∨ e = RangeError ∨ e = TypeError
}.

Section WithLibraries.
Context {P : Poseidon} {C : Conversion}.

(** [toField(num)]: [BigInt(num)], for a string and for anything else. *)
Definition toField (num : Value) : result Z := BigInt num.

(** [MerkleTree.insert(commitment)]: the capacity is checked first, then
    the commitment is converted and stored. *)
Definition insert (tr : MerkleTree.t) (commitment : Value)
    : MerkleTree.t * result nat :=
  if (MerkleTree.capacity tr <=? MerkleTree.filled tr)%nat
  then (tr, Throw TreeFull)
  else
    let pos := MerkleTree.filled tr in
    match BigInt commitment with
    | Throw e => (tr, Throw e)
    | Ok leaf =>
      ({| MerkleTree.levels := MerkleTree.levels tr;
          MerkleTree.capacity := MerkleTree.capacity tr;
          MerkleTree.leaves := <[pos := leaf]> (MerkleTree.leaves tr);
          MerkleTree.zeros := MerkleTree.zeros tr;
          MerkleTree.filled := S (MerkleTree.filled tr) |}, Ok pos)
    end.

(** [deposit(amount, userAddress)]: the two draws cannot fail;
    [generateCommitment] converts the amount before anything else is done,
    and what follows is [Flow.deposit] on the number. *)
Definition deposit (st : Flow.State) (rnd : Z * Z) (now : Z) (amount : Value)
    (userAddress : Z) : Flow.State * result Flow.DepositData :=
  match toField amount with
  | Throw e => (st, Throw e)
  | Ok amount => Flow.deposit st rnd now amount userAddress
  end.

(** [generateWithdrawalProof(amount, secret, nullifierSecret, ...)]:
    [generateCommitment] converts the three values of the note in this
    order, and what follows is [Flow.generateWithdrawalProof] on the
    numbers. *)
Definition generateWithdrawalProof (st : Flow.State) (written : bool)
    (amount secret nullifierSecret : Value) (recipient externalNullifier : Z)
    (index : nat) : result Flow.CircuitInputs :=
  amount ← toField amount;
  secret ← toField secret;
  nullifierSecret ← toField nullifierSecret;
  Flow.generateWithdrawalProof st written amount secret nullifierSecret
    recipient externalNullifier index.

End WithLibraries.

(** A conversion to run the code with: unsigned decimal literals, [0x]
    literals and the empty string, without blanks; no other primitive value
    converts. *)
Definition literal (s : string) : option Z :=
  if decide (s = "") then Some 0
  else if decide (String.substring 0 2 s = "0x") then
    let digits := String.substring 2 (String.length s - 2) s in
    if decide (digits = "") then None
    else Z.of_hex_uint <$> HexadecimalString.NilEmpty.uint_of_string digits
  else Z.of_uint <$> DecimalString.NilEmpty.uint_of_string s.

Definition literalBigInt (v : Value) : result Z :=
  match v with
  | VString s =>
    match literal s with
    | Some n => Ok n
    | None => Throw SyntaxError
    end
  | VNumber n => Ok n
  | VBigInt n => Ok n
  | VOther _ => Throw TypeError
  end.

Definition literals : Conversion.
Proof.
  refine {| BigInt := literalBigInt |}; [done | done |].
  intros [s | n | n | id] e; simpl; [| done | done |].
  - destruct (literal s); [done |]. intros [= <-]. by left.
  - intros [= <-]. by right; right.
Defined.

End Untyped.

(** ** The contract's constructor and the whole of its interface *)
Module PrivaxDeployment.
Import PrivaxProtocol.

(** [constructor(_tokenAddress, _verifierAddress)] called by [sender]: the
    storage of the new contract and the event it emits. *)
Definition constructor (sender _tokenAddress _verifierAddress : address)
    : Outcome (Storage * list Event) :=
  _ ← require (negb (bool_decide (_tokenAddress = 0)))
        "Privax: Invalid token address";
  _ ← require (negb (bool_decide (_verifierAddress = 0)))
        "Privax: Invalid verifier address";
  Success (MkStorage sender ∅, [AdminChanged 0 sender]).

(** A transaction to any state-changing function of the contract. *)
Inductive Tx :=
| UserCall (tx : Call)
| AddRelayer (sender _relayerAddress : address)
| RemoveRelayer (sender _relayerAddress : address)
| TransferOwnership (sender _newAdmin : address).

(** [msg.sender] *)
Definition txSender (tx : Tx) : address :=
  match tx with
  | UserCall (Deposit sender _ _) => sender
  | UserCall (Withdraw sender _ _ _ _ _ _) => sender
  | AddRelayer sender _ => sender
  | RemoveRelayer sender _ => sender
  | TransferOwnership sender _ => sender
  end.

(** The functions guarded by [onlyAdmin]. *)
Definition onlyAdmin (tx : Tx) : bool :=
  match tx with
  | UserCall _ => false
  | _ => true
  end.

Section Contract.
Context {V : IVerifier} {T : IERC20}.
Variables (this tokenAddress : address).

Definition dispatch (w : World) (tx : Tx) : Outcome (World * list Event) :=
  match tx with
  | UserCall c => call this tokenAddress w c
  | AddRelayer sender r => addRelayer w sender r
  | RemoveRelayer sender r => removeRelayer w sender r
  | TransferOwnership sender a => transferOwnership w sender a
  end.

(** A transaction is atomic: a revert undoes every effect. *)
Definition execTx (w : World) (tx : Tx) : World * Outcome (list Event) :=
  match dispatch w tx with
  | Success (w', events) => (w', Success events)
  | Revert f => (w, Revert f)
  end.

(** The state after a sequence of transactions. *)
Definition execAll (w : World) (txs : list Tx) : World :=
  foldl (λ w tx, (execTx w tx).1) w txs.

End Contract.
End PrivaxDeployment.

(** ** Random field elements: [randomField] of [utils/merkleTree] *)
Module Randomness.

(** [randomField()]: ['0x'] followed by the hexadecimal digits of the 31
    bytes [crypto.randomBytes(31)] returns.  The string is identified with
    the number it denotes, the first byte being the most significant; this
    is what [toField] makes of it. *)
Definition randomField (randomBytes : list Byte.byte) : Z :=
  foldl (λ acc b, 256 * acc + Z.of_N (Byte.to_N b)) 0 randomBytes.

End Randomness.

(** * The demo of the flow *)

Module Demo.
Import Flow.

Section WithHash.
Context {P : Poseidon}.

(** [runDemo()]: [initialize], a [deposit] of 1 ETH in wei for the user
    123456789, then [generateWithdrawalProof] for the note the deposit
    returned, with external nullifier 1.  [rnd] and [now] are the draws and
    the clock of the deposit, [written] tells whether [input.json] could be
    written.  An exception of a step ends the demo; the caller logs it. *)
Definition runDemo (st : State) (rnd : Z * Z) (now : Z) (written : bool)
    : State * result unit :=
  match initialize st with
  | (st, Throw e) => (st, Throw e)
  | (st, Ok _) =>
    let amount := 1000000000000000000 in
    let userAddress := 123456789 in
    match deposit st rnd now amount userAddress with
    | (st, Throw e) => (st, Throw e)
    | (st, Ok depositData) =>
      (st,
       _ ← generateWithdrawalProof st written amount (dd_secret depositData)
             (dd_nullifierSecret depositData) userAddress 1
             (dd_index depositData);
       Ok ())
    end
  end.

End WithHash.

End Demo.

(** A small, asymmetric stand-in for Poseidon, used to run the definitions. *)
Definition toyPoseidon : Poseidon :=
  λ xs, foldl (λ acc x, 31 * acc + x + 1) 7 xs mod Circuit.p.

(** ** Properties of the commitment tree *)
Module MerkleTreeFacts.
Import MerkleTree.

Section WithHash.
Context `{Poseidon}.

(** The tree after a sequence of [insert] calls, whatever they returned. *)
Definition insertAll (tr : t) (cs : list Z) : t :=
  foldl (λ tr c, (insert tr c).1) tr cs.

(** What the constructor establishes and [insert] preserves. *)
Record wf (tr : t) : Prop := {
  wf_capacity : capacity tr = (2 ^ levels tr)%nat;
  wf_leaves : length (leaves tr) = capacity tr;
  wf_filled : (filled tr ≤ capacity tr)%nat;
  wf_zeros : zeros tr = _calculateZeros (levels tr)
}.

Lemma wf_new D : wf (new D).
Proof.
  split; simpl; try done.
  - by rewrite length_replicate.
  - lia.
Qed.

Lemma insert_full tr c :
  (capacity tr ≤ filled tr)%nat → insert tr c = (tr, Throw TreeFull).
Proof.
  intros Hfull. unfold insert.
  destruct (Nat.leb_spec (capacity tr) (filled tr)); [done | lia].
Qed.

Lemma insert_room tr c :
  (filled tr < capacity tr)%nat →
  insert tr c =
    (MkTree (levels tr) (capacity tr) (<[filled tr := c]> (leaves tr))
       (zeros tr) (S (filled tr)), Ok (filled tr)).
Proof.
  intros Hroom. unfold insert.
  destruct (Nat.leb_spec (capacity tr) (filled tr)); [lia | done].
Qed.

Lemma wf_insert tr c : wf tr → wf (insert tr c).1.
Proof.
  intros [Hc Hl Hf Hz].
  destruct (decide (filled tr < capacity tr)%nat) as [Hroom | Hfull].
  - rewrite insert_room by done.
    split; simpl; [done | by rewrite length_insert | lia | done].
  - rewrite insert_full by lia. by split.
Qed.

Lemma wf_insertAll tr cs : wf tr → wf (insertAll tr cs).
Proof.
  revert tr. induction cs as [| c cs IH]; intros tr Hwf; [done |].
  simpl. apply IH. by apply wf_insert.
Qed.

(** As long as there is room, every call of a sequence lands: the fill
    pointer advances by the number of calls and the commitments sit, in
    order, in the slots it passed over. *)
Lemma insertAll_room tr cs :
  (filled tr + length cs ≤ capacity tr)%nat →
  length (leaves tr) = capacity tr →
  filled (insertAll tr cs) = (filled tr + length cs)%nat
  ∧ capacity (insertAll tr cs) = capacity tr
  ∧ leaves (insertAll tr cs) =
      take (filled tr) (leaves tr) ++ cs
        ++ drop (filled tr + length cs) (leaves tr).
Proof.
  revert tr. induction cs as [| c cs IH]; intros tr Hroom Hlen.
  - simpl. rewrite Nat.add_0_r. by rewrite take_drop.
  - simpl in *. rewrite insert_room by lia.
    set (tr' := MkTree _ _ _ _ _).
    destruct (IH tr') as (Hf & Hc & Hl).
    { subst tr'; simpl; lia. }
    { subst tr'; simpl. by rewrite length_insert. }
    subst tr'; simpl in *. rewrite Hf, Hc, Hl. split_and!; [lia | done |].
    rewrite (take_S_r _ _ c) by (apply list_lookup_insert_eq; lia).
    rewrite take_insert_ge, drop_insert_lt by lia.
    rewrite <- app_assoc. simpl.
    by replace (filled tr + S (length cs))%nat with (S (filled tr + length cs)) by lia.
Qed.

Lemma insertAll_new D cs :
  (length cs ≤ 2 ^ D)%nat →
  filled (insertAll (new D) cs) = length cs
  ∧ capacity (insertAll (new D) cs) = (2 ^ D)%nat
  ∧ leaves (insertAll (new D) cs) = cs ++ replicate (2 ^ D - length cs) 0.
Proof.
  intros Hlen.
  destruct (insertAll_room (new D) cs) as (Hf & Hc & Hl); simpl.
  - lia.
  - by rewrite length_replicate.
  - simpl in *. rewrite Hf, Hc, Hl. split_and!; [done | done |].
    by rewrite drop_replicate.
Qed.

(** C9. In a tree of capacity [2 ^ D] built by [cs] calls of [insert], a
    further [insert c] made while the fill pointer is below the capacity
    writes [c] at the slot of the fill pointer, advances the pointer by one
    and returns its old value as the leaf index; made after [2 ^ D]
    insertions, it throws 'Tree is full' and the leaves, the fill pointer and
    the root computed by [getRoot] are what they were before the call. *)
Theorem insert_appends_until_TreeFull (D : nat) (cs : list Z) (c : Z) :
  (length cs ≤ 2 ^ D)%nat →
  let tr := insertAll (new D) cs in
  let tr' := (insert tr c).1 in
  filled tr = length cs
  ∧ capacity tr = (2 ^ D)%nat
  ∧ leaves tr = cs ++ replicate (2 ^ D - length cs) 0
  ∧ if decide (length cs < 2 ^ D)%nat then
      (insert tr c).2 = Ok (filled tr)
      ∧ filled tr' = S (filled tr)
      ∧ leaves tr' = <[filled tr := c]> (leaves tr)
      ∧ leaves tr' !! filled tr = Some c
    else
      (insert tr c).2 = Throw TreeFull
      ∧ leaves tr' = leaves tr
      ∧ filled tr' = filled tr
      ∧ ∀ src, getRoot src tr' = getRoot src tr.
Proof.
  intros Hlen tr tr'.
  destruct (insertAll_new D cs Hlen) as (Hf & Hc & Hl). fold tr in Hf, Hc, Hl.
  split_and!; [done | done | done |].
  case_decide as Hroom.
  - subst tr'. rewrite insert_room by lia. simpl. split_and!; [done | done | done |].
    apply list_lookup_insert_eq. rewrite Hl, length_app, length_replicate. lia.
  - subst tr'. rewrite insert_full by lia. done.
Qed.

(** *** What the specification asks of [proof(index)]

    The definitions of this part follow the wording of the specification, to
    be compared with [generateProof]. *)

(** [zero_0 = 0], [zero_i = H(zero_(i-1), zero_(i-1))]. *)
Fixpoint specZero (i : nat) : Z :=
  match i with
  | O => 0
  | S j => poseidonHash [specZero j; specZero j]
  end.

(** The node at position [j] of level [lvl]: a leaf at level 0, above that
    the hash of its two children, with the zero constant wherever a child
    position has no real descendant. *)
Fixpoint specNode (leaves : list Z) (fillPointer lvl j : nat) : Z :=
  match lvl with
  | O => default 0 (leaves !! j)
  | S l =>
    let child k :=
      if (k * 2 ^ l <? fillPointer)%nat then specNode leaves fillPointer l k
      else specZero l in
    poseidonHash [child (2 * j)%nat; child (2 * j + 1)%nat]
  end.

(** Per level from leaf to root: the sibling value (an existing node if the
    sibling index is below the fill pointer, else the zero constant of the
    level) and the direction bit (0 = current node is a left child). *)
Definition specProof (tr : t) (index : nat) : result (list Z * list Z) :=
  if (filled tr <=? index)%nat then Throw UnknownLeaf
  else
    let currentIndex i := (index / 2 ^ i)%nat in
    let bit i := (currentIndex i mod 2)%nat in
    let siblingIndex i :=
      if decide (bit i = 0%nat) then (currentIndex i + 1)%nat
      else (currentIndex i - 1)%nat in
    let sibling i :=
      if (siblingIndex i <? filled tr)%nat
      then specNode (leaves tr) (filled tr) i (siblingIndex i)
      else specZero i in
    Ok (map sibling (seq 0 (levels tr)),
        map (λ i, Z.of_nat (bit i)) (seq 0 (levels tr))).

Lemma generateProof_UnknownLeaf src tr index :
  (filled tr ≤ index)%nat → generateProof src tr index = Throw UnknownLeaf.
Proof.
  intros Hge. unfold generateProof.
  destruct (Nat.leb_spec (filled tr) index); [done | lia].
Qed.

(** *** What [generateProof] returns, in general *)

(** The sibling slot and the bit [generateProof] computes at level [i]. *)
Definition codeSiblingIndex (index i : nat) : nat :=
  let currentIndex := (index / 2 ^ i)%nat in
  if decide ((currentIndex mod 2)%nat = 0%nat) then (currentIndex + 1)%nat
  else (currentIndex - 1)%nat.

Definition codeBit (index i : nat) : Z :=
  if decide (((index / 2 ^ i) mod 2)%nat = 0%nat) then 1 else 0.

Definition codeSibling (tr : t) (index i : nat) : Z :=
  default 0
    (if (codeSiblingIndex index i <? filled tr)%nat
     then leaves tr !! codeSiblingIndex index i
     else zeros tr !! i).

Lemma length_zeros_from z n : length (zeros_from z n) = S n.
Proof. revert z. induction n as [| n IH]; intros z; simpl; [done | by rewrite IH]. Qed.

Lemma generateProof_loop_ts tr index n i accE accI :
  wf tr → (i + n ≤ levels tr)%nat →
  generateProof_loop merkleTree_ts tr n i (index / 2 ^ i)%nat accE accI
  = Ok (accE ++ map (codeSibling tr index) (seq i n),
        accI ++ map (codeBit index) (seq i n)).
Proof.
  intros Hwf. revert i accE accI.
  induction n as [| n IH]; intros i accE accI Hi.
  { simpl. by rewrite !app_nil_r. }
  cbn [generateProof_loop seq map].
  fold (codeSiblingIndex index i). fold (codeBit index i).
  assert (is_Some (if (codeSiblingIndex index i <? filled tr)%nat
                   then leaves tr !! codeSiblingIndex index i
                   else zerosAt merkleTree_ts tr i)) as [sib Hsib].
  { destruct (Nat.ltb_spec (codeSiblingIndex index i) (filled tr)) as [Hlt | Hge].
    - apply lookup_lt_is_Some. destruct Hwf as [_ Hl Hf _]. lia.
    - simpl. apply lookup_lt_is_Some.
      rewrite (wf_zeros _ Hwf). unfold _calculateZeros.
      rewrite length_zeros_from. lia. }
  assert (codeSibling tr index i = sib) as Hcode.
  { unfold codeSibling. simpl in Hsib. by rewrite Hsib. }
  rewrite Hsib. cbn [toString mbind result_bind].
  replace (index / 2 ^ i / 2)%nat with (index / 2 ^ S i)%nat.
  2:{ rewrite Nat.pow_succ_r', (Nat.mul_comm 2). by rewrite Nat.Div0.div_div. }
  rewrite IH by lia. rewrite Hcode. by rewrite <- !app_assoc.
Qed.

(** In the TypeScript file, for every leaf that exists, [generateProof]
    returns one sibling and one bit per level; the bit is 1 where the current
    node is a left child and 0 where it is a right child, and the sibling is
    the entry of the leaf array at the sibling's position whenever that
    position is below the fill pointer, at every level. *)
Lemma generateProof_ts tr index :
  wf tr → (index < filled tr)%nat →
  generateProof merkleTree_ts tr index
  = Ok (map (codeSibling tr index) (seq 0 (levels tr)),
        map (codeBit index) (seq 0 (levels tr))).
Proof.
  intros Hwf Hlt. unfold generateProof.
  destruct (Nat.leb_spec (filled tr) index); [lia |].
  replace index with (index / 2 ^ 0)%nat at 1 by (simpl; apply Nat.div_1_r).
  by rewrite generateProof_loop_ts.
Qed.

(** C5, evaluated. With two commitments [c0], [c1] in a tree of depth two,
    [generateProof(0)] returns the siblings [c1; c1] and the bits [1; 1], and
    [generateProof(1)] the siblings [c0; c1] and the bits [0; 1]: the bit is 1
    for a left child and 0 for a right child, and the sibling of every level
    is read from the leaf array.  The specification asks for the siblings
    [c1; zero_1] and the bits [0; 0] at index 0.  Only the refusal of an index
    at or above the fill pointer is as specified. *)
Theorem generateProof_two_leaves (src : Source) (c0 c1 : Z) :
  let tr := insertAll (new 2) [c0; c1] in
  generateProof src tr 0 = Ok ([c1; c1], [1; 1])
  ∧ generateProof src tr 1 = Ok ([c0; c1], [0; 1])
  ∧ specProof tr 0 = Ok ([c1; poseidonHash [0; 0]], [0; 0])
  ∧ specProof tr 1 = Ok ([c0; poseidonHash [0; 0]], [1; 0])
  ∧ generateProof src tr 0 ≠ specProof tr 0
  ∧ ∀ index, (2 ≤ index)%nat → generateProof src tr index = Throw UnknownLeaf.
Proof.
  intros tr. split_and!; try done.
  intros index Hge. by apply generateProof_UnknownLeaf.
Qed.

(** The circuit's selector: with bit 0 the running hash is the left input of
    the level hasher, with bit 1 the right input. *)
Lemma merkleLevelHasher_0 (cur e : Z) :
  0 ≤ cur < Circuit.p → 0 ≤ e < Circuit.p →
  Circuit.merkleLevelHasher cur e 0 = poseidon [cur; e].
Proof.
  intros Hcur He.
  unfold Circuit.merkleLevelHasher, Circuit.Fadd, Circuit.Fmul, Circuit.Fsub.
  replace ((1 - 0) mod Circuit.p) with 1 by done.
  rewrite !Z.mul_0_l, !Z.mul_1_l, Z.mod_0_l by done.
  rewrite Z.add_0_l, Z.add_0_r, !Z.mod_mod by done.
  by rewrite !Z.mod_small by done.
Qed.

Lemma merkleLevelHasher_1 (cur e : Z) :
  0 ≤ cur < Circuit.p → 0 ≤ e < Circuit.p →
  Circuit.merkleLevelHasher cur e 1 = poseidon [e; cur].
Proof.
  intros Hcur He.
  unfold Circuit.merkleLevelHasher, Circuit.Fadd, Circuit.Fmul, Circuit.Fsub.
  replace ((1 - 1) mod Circuit.p) with 0 by done.
  rewrite !Z.mul_0_l, !Z.mul_1_l, Z.mod_0_l by done.
  rewrite Z.add_0_l, Z.add_0_r, !Z.mod_mod by done.
  by rewrite !Z.mod_small by done.
Qed.

(** C4, evaluated. With a single commitment [c] in a tree of depth one (the
    tree is not full), the TypeScript [generateProof(0)] returns the sibling
    [0] with bit [1]; the circuit's fold of [c] along it is [H(0, c)], while
    [getRoot()] is [H(c, 0)].  In the JavaScript file both [generateProof(0)]
    and [getRoot()] throw, the zero table being read off the promise. *)
Theorem roundtrip_single_leaf (c : Z) :
  0 ≤ c < Circuit.p →
  let tr := insertAll (new 1) [c] in
  generateProof merkleTree_ts tr 0 = Ok ([0], [1])
  ∧ Circuit.currentHashes c [0] [1] = poseidon [0; c]
  ∧ getRoot merkleTree_ts tr = Ok (Some (poseidon [c; 0]))
  ∧ generateProof merkleTree_js tr 0 = Throw TypeError
  ∧ getRoot merkleTree_js tr = Throw TypeError.
Proof.
  intros Hc tr. split_and!; try done.
  simpl. by rewrite merkleLevelHasher_1.
Qed.

(** C8. The tree-side note functions compute what the circuit recomputes:
    [generateCommitment] is the three-input hash of amount, secret and
    nullifier secret that feeds [calculatedCommitment], and
    [generateNullifierHash] is the two-input hash of the nullifier secret and
    the constant 1 that feeds [calculatedNullifierHash]; the circuit's
    nullifier constraint accepts the tree-side value. *)
Theorem note_hashes_agree_with_circuit (inp : Circuit.Inputs) :
  generateCommitment (Circuit.amount inp) (Circuit.secret inp)
      (Circuit.nullifierSecret inp) = Circuit.calculatedCommitment inp
  ∧ generateNullifierHash (Circuit.nullifierSecret inp)
      = Circuit.calculatedNullifierHash inp
  ∧ Circuit.constrainEq (generateNullifierHash (Circuit.nullifierSecret inp))
      (Circuit.calculatedNullifierHash inp) = true.
Proof.
  split_and!; [done | done |].
  unfold Circuit.constrainEq. by apply bool_decide_eq_true.
Qed.

End WithHash.

(** The third insertion into a tree of depth one is refused. *)
Lemma insert_appends_until_TreeFull_witness :
  (length [5; 6] ≤ 2 ^ 1)%nat
  ∧ (insert (insertAll (new (H := toyPoseidon) 1) [5; 6]) 7).2 = Throw TreeFull.
Proof.
  split; [simpl; lia |].
  pose proof (insert_appends_until_TreeFull (H := toyPoseidon) 1 [5; 6] 7) as Hthm.
  simpl in Hthm. apply Hthm. lia.
Defined.

(** A commitment within the field: the single leaf 100. *)
Lemma roundtrip_single_leaf_witness :
  0 ≤ 100 < Circuit.p
  ∧ Circuit.currentHashes (H := toyPoseidon) 100 [0] [1] = toyPoseidon [0; 100].
Proof.
  split; [unfold Circuit.p; lia |].
  apply (roundtrip_single_leaf (H := toyPoseidon) 100). unfold Circuit.p; lia.
Defined.

(** Under the stand-in hash the fold and the root of that tree differ. *)
Example roundtrip_single_leaf_differs :
  Circuit.currentHashes (H := toyPoseidon) 100 [0] [1] = 6859
  ∧ getRoot (H := toyPoseidon) merkleTree_ts (insertAll (new (H := toyPoseidon) 1) [100])
      = Ok (Some 9859).
Proof. split; vm_compute; reflexivity. Qed.

End MerkleTreeFacts.

(** ** Properties of the ledger contract *)
Module PrivaxFacts.
Import PrivaxProtocol.

(** The reasons with which [withdraw] rejects its arguments before it
    consults the verifier. *)
Definition validation_reasons : list string :=
  [ "Privax: Withdrawal amount must be greater than zero";
    "Privax: Recipient cannot be the zero address";
    "Privax: Incorrect number of public inputs";
    "Privax: Recipient mismatch in proof inputs";
    "Privax: Amount mismatch in proof inputs" ].

Lemma uint160_address (a : Z) : is_address a → uint160 a = a.
Proof. intros Ha. unfold uint160. by apply Z.mod_small. Qed.

(** Public inputs bound to one recipient do not match another: the case of
    proof bytes reused with a substituted recipient. *)
Lemma substituted_recipient_mismatch (pi : list Z) (recipientA recipientB : Z) :
  is_address recipientA → is_address recipientB → recipientB ≠ recipientA →
  pi !! 2%nat = Some (uint160 recipientA) →
  pi !! 2%nat ≠ Some (uint160 recipientB).
Proof.
  intros HA HB Hne Hbound. rewrite Hbound, !uint160_address by done.
  intros [= Heq]. by apply Hne.
Qed.

Section Contract.
Context {V : IVerifier} {T : IERC20}.
Variables (this tokenAddress : address).

Lemma exec_revert w tx f :
  call this tokenAddress w tx = Revert f →
  exec this tokenAddress w tx = (w, Revert f).
Proof. intros Hcall. unfold exec. by rewrite Hcall. Qed.

(** [withdraw] looks at its public inputs through their number, the entries
    1, 2 and 3, and the verifier's answer, and through nothing else. *)
Lemma withdraw_ext w sender a b c (pi pi' : list Z) recipient amount :
  length pi = length pi' →
  pi !! 1%nat = pi' !! 1%nat →
  pi !! 2%nat = pi' !! 2%nat →
  pi !! 3%nat = pi' !! 3%nat →
  verifyProof a b c pi = verifyProof a b c pi' →
  withdraw this tokenAddress w sender a b c pi recipient amount
  = withdraw this tokenAddress w sender a b c pi' recipient amount.
Proof.
  intros Hlen H1 H2 H3 Hv. unfold withdraw, index.
  by rewrite Hlen, H1, H2, H3, Hv.
Qed.

End Contract.

Ltac reject_with reason :=
  exists reason; split;
  [ unfold validation_reasons;
    repeat first [ apply list_elem_of_here | apply list_elem_of_further ]
  | intros V; split;
    [ | apply exec_revert; simpl ];
    unfold withdraw, require, REQUIRED_PUBLIC_INPUTS_COUNT; simpl;
    repeat match goal with Hc : ?cond = _ |- context [?cond] => rewrite Hc end;
    reflexivity ].

(** A call that fails one of the argument checks is rejected with the reason
    of the first check it fails, before the verifier is asked. *)
Lemma withdraw_validation {T : IERC20} (this tokenAddress : address)
    (w : World) (sender : address) a b c (pi : list Z)
    (recipient : address) (amount : uint256) :
  length pi ≠ 5%nat
  ∨ pi !! 2%nat ≠ Some (uint160 recipient)
  ∨ pi !! 3%nat ≠ Some amount →
  ∃ reason, reason ∈ validation_reasons ∧
    ∀ V : IVerifier,
      withdraw (V := V) this tokenAddress w sender a b c pi recipient amount
        = Revert (Require reason)
      ∧ exec (V := V) this tokenAddress w
          (Withdraw sender a b c pi recipient amount)
        = (w, Revert (Require reason)).
Proof.
  intros Hbad.
  destruct (0 <? amount) eqn:Hamt;
    [| reject_with "Privax: Withdrawal amount must be greater than zero"%string].
  destruct (bool_decide (recipient = 0)) eqn:Hzero;
    [reject_with "Privax: Recipient cannot be the zero address"%string |].
  destruct (bool_decide (length pi = 5%nat)) eqn:Hlen;
    [| reject_with "Privax: Incorrect number of public inputs"%string].
  apply bool_decide_eq_true in Hlen.
  destruct pi as [| root [| nh [| rc [| am [| en [| ? ?]]]]]]; try discriminate Hlen.
  clear Hlen.
  destruct (uint160 recipient =? rc) eqn:Hrc;
    [| reject_with "Privax: Recipient mismatch in proof inputs"%string].
  destruct (amount =? am) eqn:Ham;
    [| reject_with "Privax: Amount mismatch in proof inputs"%string].
  apply Z.eqb_eq in Hrc, Ham. subst rc am.
  destruct Hbad as [Hbad | [Hbad | Hbad]]; by destruct Hbad.
Qed.

(** C6. [withdraw] checks that there are exactly five public inputs and that
    its [_recipient] and [_amountToWithdraw] arguments equal entries 2 and 3
    of them.  A call with another number of public inputs, or whose recipient
    or amount differs from the one encoded in the public inputs, reverts with
    one of the validation reasons whatever the verifier would have answered,
    and the transaction leaves the contract's and the token's storage as they
    were. *)
Theorem withdraw_checks_public_inputs {T : IERC20} (this tokenAddress : address)
    (w : World) (sender : address) a b c (pi : list Z)
    (recipient : address) (amount : uint256) :
  length pi ≠ 5%nat
  ∨ pi !! 2%nat ≠ Some (uint160 recipient)
  ∨ pi !! 3%nat ≠ Some amount →
  ∃ reason, reason ∈ validation_reasons ∧
    ∀ V : IVerifier,
      withdraw (V := V) this tokenAddress w sender a b c pi recipient amount
        = Revert (Require reason)
      ∧ exec (V := V) this tokenAddress w
          (Withdraw sender a b c pi recipient amount)
        = (w, Revert (Require reason)).
Proof. apply withdraw_validation. Qed.

(** When the verifier refuses, [withdraw] reverts: with a validation reason
    if an argument check fails first, else with the proof reason. *)
Lemma withdraw_verifier_false {V : IVerifier} {T : IERC20}
    (this tokenAddress : address) (w : World) (sender : address) a b c
    (pi : list Z) (recipient : address) (amount : uint256) :
  verifyProof a b c pi = false →
  ∃ reason, withdraw this tokenAddress w sender a b c pi recipient amount
            = Revert (Require reason)
    ∧ (reason ∈ validation_reasons ∨ reason = "Privax: Invalid ZK proof"%string).
Proof.
  intros Hfalse.
  destruct (decide (length pi ≠ 5%nat ∨ pi !! 2%nat ≠ Some (uint160 recipient)
                    ∨ pi !! 3%nat ≠ Some amount)) as [Hbad | Hgood].
  { destruct (withdraw_validation this tokenAddress w sender a b c pi recipient
                amount Hbad) as (reason & Hin & Hrev).
    exists reason. split; [apply Hrev | by left]. }
  assert (length pi = 5%nat) as Hlen.
  { destruct (decide (length pi = 5%nat)); [done |]. destruct Hgood; by left. }
  assert (pi !! 2%nat = Some (uint160 recipient)) as Hrc.
  { destruct (decide (pi !! 2%nat = Some (uint160 recipient))); [done |].
    destruct Hgood; right; by left. }
  assert (pi !! 3%nat = Some amount) as Ham.
  { destruct (decide (pi !! 3%nat = Some amount)); [done |].
    destruct Hgood; right; by right. }
  destruct pi as [| root [| nh [| rc [| am [| en [| ? ?]]]]]]; try discriminate Hlen.
  injection Hrc as ->. injection Ham as ->.
  unfold withdraw, require, index, REQUIRED_PUBLIC_INPUTS_COUNT.
  rewrite Hfalse. simpl. rewrite !Z.eqb_refl.
  destruct (0 <? amount); simpl.
  2:{ eexists. split; [done |]. left. unfold validation_reasons. set_solver. }
  destruct (bool_decide (recipient = 0)); simpl.
  { eexists. split; [done |]. left. unfold validation_reasons. set_solver. }
  eexists. split; [done |]. by right.
Qed.

(** A deployment to run the contract on: the contract at address 1000 holds
    [escrow] units of the standard token deployed at 2000; account 7 holds
    [purse] units and has approved the contract for as much. *)
Definition funded (escrow purse : Z) : World (T := StandardERC20) :=
  MkWorld (T := StandardERC20) (MkStorage 1 ∅)
    (MkStdToken {[ 1000 := escrow; 7 := purse ]} {[ (7, 1000) := purse ]}).

(** A proof bound to recipient 500 and amount 40 is presented for
    recipient 501. *)
Lemma withdraw_checks_public_inputs_witness :
  (length [11; 22; 500; 40; 1] ≠ 5%nat
   ∨ [11; 22; 500; 40; 1] !! 2%nat ≠ Some (uint160 501)
   ∨ [11; 22; 500; 40; 1] !! 3%nat ≠ Some 40)
  ∧ ∃ reason, reason ∈ validation_reasons ∧
      ∀ V : IVerifier,
        withdraw (V := V) (T := StandardERC20) 1000 2000 (funded 100 0) 7
            (0, 0) ((0, 0), (0, 0)) (0, 0) [11; 22; 500; 40; 1] 501 40
          = Revert (Require reason)
        ∧ exec (V := V) (T := StandardERC20) 1000 2000 (funded 100 0)
            (Withdraw 7 (0, 0) ((0, 0), (0, 0)) (0, 0) [11; 22; 500; 40; 1] 501 40)
          = (funded 100 0, Revert (Require reason)).
Proof.
  assert (Hbad : length [11; 22; 500; 40; 1] ≠ 5%nat
                 ∨ [11; 22; 500; 40; 1] !! 2%nat ≠ Some (uint160 501)
                 ∨ [11; 22; 500; 40; 1] !! 3%nat ≠ Some 40).
  { right; left. vm_compute. discriminate. }
  split; [exact Hbad |].
  exact (withdraw_checks_public_inputs (T := StandardERC20) 1000 2000
           (funded 100 0) 7 (0, 0) ((0, 0), (0, 0)) (0, 0)
           [11; 22; 500; 40; 1] 501 40 Hbad).
Defined.

(** C7, as the contract has it. A [deposit] that goes through was called with
    a positive amount, raised the contract's token balance by exactly that
    amount through the caller's [transferFrom], left the contract's own
    storage as it was and emitted one [DepositOccurred] carrying the caller,
    the token address, the amount and the commitment.  A [deposit] that
    reverts changes nothing; it reverts with the amount reason exactly when
    the amount is not positive, and with the transfer reason exactly when the
    token call returned without the balance having risen by the amount. *)
Theorem deposit_escrows_and_emits {V : IVerifier} {T : IERC20}
    (this tokenAddress : address) (w : World) (sender : address)
    (amount : uint256) (commitment : Z) :
  match exec this tokenAddress w (Deposit sender amount commitment) with
  | (w', Success events) =>
      0 < amount
      ∧ transferFrom (token w) this sender this amount = Some (token w')
      ∧ balanceOf (token w') this = balanceOf (token w) this + amount
      ∧ storage w' = storage w
      ∧ events = [DepositOccurred sender tokenAddress amount commitment]
  | (w', Revert f) =>
      w' = w
      ∧ (amount ≤ 0 ↔
         f = Require "Privax: Deposit amount must be greater than zero")
      ∧ ((0 < amount ∧ ∃ token',
            transferFrom (token w) this sender this amount = Some token'
            ∧ balanceOf (token w) this + amount < 2 ^ 256
            ∧ balanceOf token' this ≠ balanceOf (token w) this + amount) ↔
         f = Require "Privax: Token transfer failed or incorrect amount")
  end.
Proof.
  unfold exec, call, deposit, require, checked_add; simpl.
  destruct (Z.ltb_spec 0 amount) as [Hpos | Hnpos]; simpl.
  2:{ split_and!; [done | done |]. split; [intros [? _]; lia | discriminate]. }
  destruct (transferFrom (token w) this sender this amount) as [token' |] eqn:Hcall; simpl.
  2:{ split_and!; [done | |].
      - split; [lia | discriminate].
      - split; [intros (_ & ? & [=] & _) | discriminate]. }
  destruct (Z.leb_spec (2 ^ 256) (balanceOf (token w) this + amount))
    as [Hover | Hfits]; simpl.
  { split_and!; [done | |].
    - split; [lia | discriminate].
    - split; [intros (_ & ? & _ & ? & _); lia | discriminate]. }
  destruct (Z.eqb_spec (balanceOf token' this) (balanceOf (token w) this + amount))
    as [Hdelta | Hdelta]; simpl.
  - done.
  - split_and!; [done | |].
    + split; [lia | discriminate].
    + split; [done |]. intros _. split; [done |]. by exists token'.
Qed.

(** Observations on the result of a transaction. *)
Definition succeeded {A} (o : Outcome A) : bool :=
  match o with
  | Success _ => true
  | Revert _ => false
  end.

Lemma exec_events {V : IVerifier} {T : IERC20} (this tokenAddress : address)
    (w : World) tx events :
  (exec this tokenAddress w tx).2 = Success events →
  exec this tokenAddress w tx = ((exec this tokenAddress w tx).1, Success events).
Proof. destruct (exec this tokenAddress w tx) as [w' o]. simpl. by intros ->. Qed.

(** The claim that the deposit event tells the leaf index: some reading of
    the event gives, for two deposits in a row, consecutive indices. *)
Definition deposit_event_carries_leaf_index (V : IVerifier) (T : IERC20)
    (this tokenAddress : address) : Prop :=
  ∃ leafIndex : Event → nat,
    ∀ (w w1 w2 : World) sender amount commitment e1 e2,
      exec this tokenAddress w (Deposit sender amount commitment)
        = (w1, Success [e1]) →
      exec this tokenAddress w1 (Deposit sender amount commitment)
        = (w2, Success [e2]) →
      leafIndex e2 = S (leafIndex e1).

(** C7, refuted as stated. Account 7 deposits 40 twice with the same
    commitment: both calls go through and the two events are the same
    [DepositOccurred], so no leaf index or root can be read off them. *)
Lemma deposit_event_has_no_leaf_index :
  ¬ deposit_event_carries_leaf_index (MockVerifier true) StandardERC20 1000 2000.
Proof.
  intros [leafIndex Hclaim].
  pose (run := exec (V := MockVerifier true) (T := StandardERC20) 1000 2000).
  pose (w1 := (run (funded 0 100) (Deposit 7 40 12345)).1).
  pose (w2 := (run w1 (Deposit 7 40 12345)).1).
  specialize (Hclaim (funded 0 100) w1 w2 7 40 12345
                (DepositOccurred 7 2000 40 12345)
                (DepositOccurred 7 2000 40 12345)).
  assert (leafIndex (DepositOccurred 7 2000 40 12345)
          = S (leafIndex (DepositOccurred 7 2000 40 12345))) as Habs.
  { apply Hclaim; apply exec_events; vm_compute; reflexivity. }
  lia.
Qed.

(** The claim of finality, on the contract: once a withdrawal went through,
    a later one with the same nullifier hash is rejected. *)
Definition nullifier_final (V : IVerifier) (T : IERC20)
    (this tokenAddress : address) : Prop :=
  ∀ (w w1 : World) events sender a b c pi recipient amount,
    exec this tokenAddress w (Withdraw sender a b c pi recipient amount)
      = (w1, Success events) →
    ∀ sender' a' b' c' pi' recipient' amount',
      pi' !! 1%nat = pi !! 1%nat →
      succeeded (exec this tokenAddress w1
                   (Withdraw sender' a' b' c' pi' recipient' amount')).2 = false.

(** C1, refuted as stated. The contract holds 100; the same withdrawal of 40
    to account 500 under nullifier hash 22 is sent twice, the verifier
    accepting: both transactions go through. *)
Lemma spent_nullifier_accepted_again :
  ¬ nullifier_final (MockVerifier true) StandardERC20 1000 2000.
Proof.
  intros Hclaim.
  pose (run := exec (V := MockVerifier true) (T := StandardERC20) 1000 2000).
  pose (tx := Withdraw 7 (0, 0) ((0, 0), (0, 0)) (0, 0) [11; 22; 500; 40; 1] 500 40).
  pose (w1 := (run (funded 100 0) tx).1).
  assert (succeeded (run w1 tx).2 = false) as Hrejected.
  { apply (Hclaim (funded 100 0) w1 [WithdrawalOccurred 22 500 2000 40]
             7 (0, 0) ((0, 0), (0, 0)) (0, 0) [11; 22; 500; 40; 1] 500 40).
    - apply exec_events. vm_compute. reflexivity.
    - reflexivity. }
  vm_compute in Hrejected. discriminate Hrejected.
Qed.

(** What the second of those transactions does to the balances: the escrow,
    100 at the start, is down to 20 and the recipient holds 80. *)
Example double_withdrawal_balances :
  let run := exec (V := MockVerifier true) (T := StandardERC20) 1000 2000 in
  let tx := Withdraw 7 (0, 0) ((0, 0), (0, 0)) (0, 0) [11; 22; 500; 40; 1] 500 40 in
  let w2 := (run (run (funded 100 0) tx).1 tx).1 in
  std_balanceOf (token w2) 1000 = 20 ∧ std_balanceOf (token w2) 500 = 80.
Proof. vm_compute. split; reflexivity. Qed.

(** The claim of root matching, on the contract: some value held by the
    ledger is the current root, and a withdrawal whose first public input is
    another value is rejected. *)
Definition withdraw_requires_current_root (V : IVerifier) (T : IERC20)
    (this tokenAddress : address) : Prop :=
  ∃ currentRoot : World → Z,
    ∀ (w : World) sender a b c pi recipient amount,
      pi !! 0%nat ≠ Some (currentRoot w) →
      succeeded (withdraw this tokenAddress w sender a b c pi recipient amount)
      = false.

(** C2, refuted as stated. From one and the same state the contract accepts
    a withdrawal whose root input is 11 and one whose root input is 12, the
    verifier accepting: at most one of them is the current root. *)
Lemma stale_root_accepted :
  ¬ withdraw_requires_current_root (MockVerifier true) StandardERC20 1000 2000.
Proof.
  intros [currentRoot Hclaim].
  destruct (decide (currentRoot (funded 100 0) = 11)) as [Heq | Hne].
  - specialize (Hclaim (funded 100 0) 7 (0, 0) ((0, 0), (0, 0)) (0, 0)
                  [12; 22; 500; 40; 1] 500 40).
    assert (Some 12 ≠ Some (currentRoot (funded 100 0))) as Hstale.
    { rewrite Heq. intros [=]. }
    apply Hclaim in Hstale. vm_compute in Hstale. discriminate Hstale.
  - specialize (Hclaim (funded 100 0) 7 (0, 0) ((0, 0), (0, 0)) (0, 0)
                  [11; 22; 500; 40; 1] 500 40).
    assert (Some 11 ≠ Some (currentRoot (funded 100 0))) as Hstale.
    { intros [= Heq]. by apply Hne. }
    apply Hclaim in Hstale. vm_compute in Hstale. discriminate Hstale.
Qed.

(** [inp] with another value for the [externalNullifier] signal. *)
Definition with_externalNullifier (x : Z) (inp : Circuit.Inputs) : Circuit.Inputs :=
  Circuit.MkInputs (Circuit.secret inp) (Circuit.nullifierSecret inp)
    (Circuit.pathElements inp) (Circuit.pathIndices inp)
    (Circuit.merkleRoot inp) (Circuit.nullifierHash inp)
    (Circuit.recipient inp) (Circuit.amount inp) x.

(** C10. Two [withdraw] calls whose public inputs agree everywhere but at
    entry 4, the external nullifier, and for which the verifier gives the
    same verdict, have the same outcome: the same revert, or the same
    transfer and event.  Nor does the circuit constrain the signal: an
    assignment satisfies [Withdraw(levels)] whatever its external nullifier. *)
Theorem withdraw_ignores_externalNullifier {V : IVerifier} {T : IERC20}
    {P : Poseidon} (this tokenAddress : address) (w : World) (sender : address)
    a b c (pi pi' : list Z) (recipient : address) (amount : uint256) :
  length pi = length pi' →
  (∀ i : nat, i ≠ 4%nat → pi !! i = pi' !! i) →
  verifyProof a b c pi = verifyProof a b c pi' →
  withdraw this tokenAddress w sender a b c pi recipient amount
    = withdraw this tokenAddress w sender a b c pi' recipient amount
  ∧ exec this tokenAddress w (Withdraw sender a b c pi recipient amount)
    = exec this tokenAddress w (Withdraw sender a b c pi' recipient amount)
  ∧ ∀ levels inp x,
      Circuit.Withdraw levels (with_externalNullifier x inp)
      = Circuit.Withdraw levels inp.
Proof.
  intros Hlen Hagree Hverdict.
  assert (withdraw this tokenAddress w sender a b c pi recipient amount
          = withdraw this tokenAddress w sender a b c pi' recipient amount) as Heq.
  { apply withdraw_ext; [done | by apply Hagree .. | done]. }
  split_and!; [done | | done].
  unfold exec; simpl. by rewrite Heq.
Qed.

(** The same withdrawal presented with external nullifier 1 and with 999. *)
Lemma withdraw_ignores_externalNullifier_witness :
  length [11; 22; 500; 40; 1] = length [11; 22; 500; 40; 999]
  ∧ exec (V := MockVerifier true) (T := StandardERC20) 1000 2000 (funded 100 0)
      (Withdraw 7 (0, 0) ((0, 0), (0, 0)) (0, 0) [11; 22; 500; 40; 1] 500 40)
    = exec (V := MockVerifier true) (T := StandardERC20) 1000 2000 (funded 100 0)
      (Withdraw 7 (0, 0) ((0, 0), (0, 0)) (0, 0) [11; 22; 500; 40; 999] 500 40).
Proof.
  split; [reflexivity |].
  refine (proj1 (proj2 (withdraw_ignores_externalNullifier (V := MockVerifier true)
           (T := StandardERC20) (P := toyPoseidon) 1000 2000 (funded 100 0) 7
           (0, 0) ((0, 0), (0, 0)) (0, 0)
           [11; 22; 500; 40; 1] [11; 22; 500; 40; 999] 500 40 eq_refl _ eq_refl))).
  intros [| [| [| [| [| i]]]]] Hi; try reflexivity. by destruct Hi.
Defined.

(** Every way [withdraw] reverts: an argument check, the verifier's
    refusal, a revert inside the token's [transfer], the overflow of the
    expected balance, or the balance check. *)
Lemma withdraw_failures {V : IVerifier} {T : IERC20}
    (this tokenAddress : address) (w : World) (sender : address) a b c
    (pi : list Z) (recipient : address) (amount : uint256) (f : Failure) :
  withdraw this tokenAddress w sender a b c pi recipient amount = Revert f →
  (∃ reason, f = Require reason ∧ reason ∈ validation_reasons)
  ∨ (f = Require "Privax: Invalid ZK proof" ∧ verifyProof a b c pi = false)
  ∨ (f = CallReverted ∧ transfer (token w) this recipient amount = None)
  ∨ f = PanicOverflow
  ∨ f = Require "Privax: Token transfer failed or incorrect amount".
Proof.
  assert (∀ reason, reason ∈ validation_reasons →
            (∃ reason', Require reason = Require reason'
                        ∧ reason' ∈ validation_reasons)) as Hvalidation
    by (intros reason ?; by exists reason).
  unfold withdraw, require, index, checked_add, REQUIRED_PUBLIC_INPUTS_COUNT.
  destruct (0 <? amount); cbn [mbind Outcome_bind].
  2:{ intros [= <-]. left. apply Hvalidation. unfold validation_reasons.
      repeat first [ apply list_elem_of_here | apply list_elem_of_further ]. }
  destruct (bool_decide (recipient = 0)); cbn [mbind Outcome_bind negb].
  { intros [= <-]. left. apply Hvalidation. unfold validation_reasons.
      repeat first [ apply list_elem_of_here | apply list_elem_of_further ]. }
  destruct (bool_decide (length pi = 5%nat)) eqn:Hlen; cbn [mbind Outcome_bind].
  2:{ intros [= <-]. left. apply Hvalidation. unfold validation_reasons.
      repeat first [ apply list_elem_of_here | apply list_elem_of_further ]. }
  apply bool_decide_eq_true in Hlen.
  destruct pi as [| root [| nh [| rc [| am [| en [| ? ?]]]]]]; try discriminate Hlen.
  cbn [lookup list_lookup mbind Outcome_bind].
  destruct (uint160 recipient =? rc); cbn [mbind Outcome_bind].
  2:{ intros [= <-]. left. apply Hvalidation. unfold validation_reasons.
      repeat first [ apply list_elem_of_here | apply list_elem_of_further ]. }
  destruct (amount =? am); cbn [mbind Outcome_bind].
  2:{ intros [= <-]. left. apply Hvalidation. unfold validation_reasons.
      repeat first [ apply list_elem_of_here | apply list_elem_of_further ]. }
  destruct (verifyProof a b c [root; nh; rc; am; en]) eqn:Hverdict;
    cbn [mbind Outcome_bind].
  2:{ intros [= <-]. right; left. done. }
  destruct (transfer (token w) this recipient amount) as [token' |].
  2:{ intros [= <-]. right; right; left. done. }
  destruct (2 ^ 256 <=? _); cbn [mbind Outcome_bind].
  { intros [= <-]. by right; right; right; left. }
  destruct (_ =? _); cbn [mbind Outcome_bind]; [done |].
  intros [= <-]. by right; right; right; right.
Qed.

(** C2, as the contract has it. [withdraw] holds no root to compare entry 0
    of the public inputs with: the entry only reaches the verifier.  Two
    calls whose public inputs agree everywhere but at entry 0 and for which
    the verifier gives the same verdict have the same outcome.  When the
    verifier refuses, the call reverts, with 'Privax: Invalid ZK proof' once
    the argument checks are passed.  And, the verifier and the token's
    [balanceOf] being calls that return, a call reverts in these ways only:
    with the reason of an argument check, with 'Privax: Invalid ZK proof'
    upon the verifier's refusal, with the token's revert of the [transfer],
    with the overflow of the expected balance, or with 'Privax: Token
    transfer failed or incorrect amount'; none of them is a mismatch of
    roots. *)
Theorem withdraw_root_only_reaches_verifier {V : IVerifier} {T : IERC20}
    (this tokenAddress : address) (w : World) (sender : address)
    a b c (pi pi' : list Z) (recipient : address) (amount : uint256) :
  length pi = length pi' →
  (∀ i : nat, i ≠ 0%nat → pi !! i = pi' !! i) →
  verifyProof a b c pi = verifyProof a b c pi' →
  withdraw this tokenAddress w sender a b c pi recipient amount
    = withdraw this tokenAddress w sender a b c pi' recipient amount
  ∧ (verifyProof a b c pi = false →
     ∃ reason, withdraw this tokenAddress w sender a b c pi recipient amount
               = Revert (Require reason)
       ∧ (reason ∈ validation_reasons ∨ reason = "Privax: Invalid ZK proof"%string))
  ∧ (∀ f : Failure,
       withdraw this tokenAddress w sender a b c pi recipient amount = Revert f →
       (∃ reason, f = Require reason ∧ reason ∈ validation_reasons)
       ∨ (f = Require "Privax: Invalid ZK proof" ∧ verifyProof a b c pi = false)
       ∨ (f = CallReverted ∧ transfer (token w) this recipient amount = None)
       ∨ f = PanicOverflow
       ∨ f = Require "Privax: Token transfer failed or incorrect amount").
Proof.
  intros Hlen Hagree Hverdict. split_and!.
  - apply withdraw_ext; [done | by apply Hagree .. | done].
  - apply withdraw_verifier_false.
  - apply withdraw_failures.
Qed.

(** The same withdrawal presented with root 11 and with root 12. *)
Lemma withdraw_root_only_reaches_verifier_witness :
  length [11; 22; 500; 40; 1] = length [12; 22; 500; 40; 1]
  ∧ withdraw (V := MockVerifier true) (T := StandardERC20) 1000 2000 (funded 100 0)
      7 (0, 0) ((0, 0), (0, 0)) (0, 0) [11; 22; 500; 40; 1] 500 40
    = withdraw (V := MockVerifier true) (T := StandardERC20) 1000 2000 (funded 100 0)
      7 (0, 0) ((0, 0), (0, 0)) (0, 0) [12; 22; 500; 40; 1] 500 40.
Proof.
  split; [reflexivity |].
  refine (proj1 (withdraw_root_only_reaches_verifier (V := MockVerifier true)
           (T := StandardERC20) 1000 2000 (funded 100 0) 7
           (0, 0) ((0, 0), (0, 0)) (0, 0)
           [11; 22; 500; 40; 1] [12; 22; 500; 40; 1] 500 40 eq_refl _ eq_refl)).
  intros [| i] Hi; [by destruct Hi | reflexivity].
Defined.

End PrivaxFacts.

(** ** Properties of the reference flow *)
Module FlowFacts.
Import Flow.

Section WithLibraries.
Context {P : Poseidon} {G : Groth16}.

Lemma withdraw_spent st vk nh proof ps :
  nh ∈ spentNullifiers st →
  withdraw st vk nh proof ps = (st, Throw NullifierSpent).
Proof. intros Hin. unfold withdraw. by rewrite decide_True. Qed.

Lemma withdraw_Ok_spends st vk nh proof ps st' out :
  withdraw st vk nh proof ps = (st', Ok out) →
  nh ∈ spentNullifiers st'.
Proof.
  unfold withdraw. intros Hw.
  destruct (decide (nh ∈ spentNullifiers st)); [done |].
  destruct vk as [verificationKey |]; [| done].
  destruct (groth16_verify verificationKey ps proof); simpl in Hw; [| done].
  injection Hw as <- _. simpl. set_solver.
Qed.

(** The set of spent nullifiers never shrinks. *)
Lemma step_spentNullifiers st op :
  spentNullifiers st ⊆ spentNullifiers (step st op).
Proof.
  destruct op as [| rnd now amt user | | vk nh proof ps]; simpl; try done.
  - unfold deposit. destruct (merkleTree st) as [tr |]; [| done].
    by destruct (MerkleTree.insert tr _) as [tr' [idx | e]].
  - unfold withdraw. destruct (decide (nh ∈ spentNullifiers st)); [done |].
    destruct vk as [verificationKey |]; [| done].
    destruct (groth16_verify verificationKey ps proof); simpl; [| done].
    set_solver.
Qed.

Lemma run_spentNullifiers st ops :
  spentNullifiers st ⊆ spentNullifiers (run st ops).
Proof.
  revert st. induction ops as [| op ops IH]; intros st; [done |].
  simpl. etrans; [apply step_spentNullifiers | apply IH].
Qed.

(** Once [withdraw] has returned for a nullifier hash, no later call
    presenting it gets past the first check. *)
Lemma withdraw_final (st st1 : State) vk nh proof ps out
    (ops : list Op) vk' proof' ps' :
  withdraw st vk nh proof ps = (st1, Ok out) →
  withdraw (run st1 ops) vk' nh proof' ps' = (run st1 ops, Throw NullifierSpent).
Proof.
  intros Hfirst. apply withdraw_spent.
  apply (run_spentNullifiers st1 ops).
  by eapply withdraw_Ok_spends.
Qed.

(** A value that is not in the spent set passes the first check; with a
    key that can be read and a proof the verifier accepts, the call returns
    and the value joins the set. *)
Lemma withdraw_unspent st k (nh : Value) proof ps :
  nh ∉ spentNullifiers st →
  groth16_verify k ps proof = true →
  withdraw st (Some k) nh proof ps
  = (MkState (deposits st) ({[ nh ]} ∪ spentNullifiers st) (merkleTree st),
     Ok (ps !! 3%nat, ps !! 2%nat)).
Proof.
  intros Hnew Hvalid. unfold withdraw.
  rewrite decide_False by done. by rewrite Hvalid.
Qed.

(** What a [deposit] into a tree with room does to the three variables. *)
Lemma deposit_room st rnd now amount userAddress tr :
  merkleTree st = Some tr →
  (MerkleTree.filled tr < MerkleTree.capacity tr)%nat →
  let commitment := MerkleTree.generateCommitment amount rnd.1 rnd.2 in
  let nullifierHash := MerkleTree.generateNullifierHash rnd.2 in
  deposit st rnd now amount userAddress =
    (MkState
       (<[commitment :=
            MkDepositInfo (MerkleTree.filled tr) amount rnd.1 rnd.2 nullifierHash
              userAddress now]> (deposits st))
       (spentNullifiers st)
       (Some (MerkleTree.insert tr commitment).1),
     Ok (MkDepositData commitment nullifierHash rnd.1 rnd.2 (MerkleTree.filled tr))).
Proof.
  intros Htree Hroom commitment nullifierHash. unfold deposit.
  rewrite Htree. fold commitment. fold nullifierHash.
  by rewrite MerkleTreeFacts.insert_room.
Qed.

(** C3, as the code has it. The reference flow's [deposit] draws the note's
    secret and nullifier secret itself, files them in [deposits] under the
    commitment, next to the leaf index, the amount, the nullifier hash, the
    recipient and the time, and hands them back to its caller.  The tree
    receives the commitment only, in the slot of the fill pointer, and the
    set of spent nullifiers is not touched. *)
Theorem deposit_files_the_secrets (st : State) (rnd : Z * Z) (now amount userAddress : Z)
    (tr : MerkleTree.t) :
  merkleTree st = Some tr →
  (MerkleTree.filled tr < MerkleTree.capacity tr)%nat →
  let commitment := MerkleTree.generateCommitment amount rnd.1 rnd.2 in
  let st' := (deposit st rnd now amount userAddress).1 in
  (∃ data, (deposit st rnd now amount userAddress).2 = Ok data
           ∧ dd_secret data = rnd.1 ∧ dd_nullifierSecret data = rnd.2
           ∧ dd_commitment data = commitment)
  ∧ (∃ info, deposits st' !! commitment = Some info
             ∧ secret info = rnd.1 ∧ nullifierSecret info = rnd.2)
  ∧ (∀ c, c ≠ commitment → deposits st' !! c = deposits st !! c)
  ∧ spentNullifiers st' = spentNullifiers st
  ∧ ∃ tr', merkleTree st' = Some tr'
           ∧ MerkleTree.leaves tr'
             = <[MerkleTree.filled tr := commitment]> (MerkleTree.leaves tr)
           ∧ MerkleTree.filled tr' = S (MerkleTree.filled tr).
Proof.
  intros Htree Hroom commitment st'. subst st'.
  rewrite (deposit_room st rnd now amount userAddress tr Htree Hroom).
  fold commitment. simpl. split_and!.
  - eexists. by split_and!.
  - eexists. rewrite lookup_insert_eq. by split_and!.
  - intros c Hc. by rewrite lookup_insert_ne.
  - done.
  - rewrite MerkleTreeFacts.insert_room by done. eexists. by split_and!.
Qed.

End WithLibraries.

(** C1, as the code has it. Once the reference flow's [withdraw] has returned
    for a nullifier hash, then after any further calls of the flow every
    [withdraw] presenting that same value, with whatever proof, public
    signals and verification key, throws 'Deposit already withdrawn' and
    leaves the deposits, the spent set and the tree, hence its root, as they
    were.  The same value is the same string, the same Number or the same
    BigInt: the set compares without converting, and a value that is not in
    it, be it another spelling of a hash that is, passes the check and is
    paid when the verifier accepts.  The contract keeps no set of
    nullifiers; a transaction it rejects leaves its storage and the token
    balances, the escrow among them, as they were. *)
Theorem spent_nullifier_is_final {P : Poseidon} {G : Groth16}
    {V : PrivaxProtocol.IVerifier} {T : PrivaxProtocol.IERC20}
    (st st1 : State) vk (nh : Value) proof ps out (ops : list Op) vk' proof' ps'
    (this tokenAddress : Z) (w : PrivaxProtocol.World) (tx : PrivaxProtocol.Call) :
  withdraw st vk nh proof ps = (st1, Ok out) →
  withdraw (run st1 ops) vk' nh proof' ps' = (run st1 ops, Throw NullifierSpent)
  ∧ (∀ (nh' : Value) k,
       nh' ∉ spentNullifiers (run st1 ops) →
       groth16_verify k ps' proof' = true →
       (withdraw (run st1 ops) (Some k) nh' proof' ps').2
       = Ok (ps' !! 3%nat, ps' !! 2%nat))
  ∧ (PrivaxFacts.succeeded (PrivaxProtocol.exec this tokenAddress w tx).2 = false →
     (PrivaxProtocol.exec this tokenAddress w tx).1 = w).
Proof.
  intros Hfirst. split_and!.
  - by eapply withdraw_final.
  - intros nh' k Hnew Hvalid. by rewrite withdraw_unspent.
  - unfold PrivaxProtocol.exec.
    by destruct (PrivaxProtocol.call this tokenAddress w tx) as [[w' events] | f].
Qed.

(** A first withdrawal under the nullifier hash ['22'] from the initial
    state, then one under ['5'].  A later call presents the string ['22']
    again, with another proof and other signals, and is refused; presented
    as ['0x16'], as the Number [22] and as the BigInt [22n], the hash is
    paid again. *)
Lemma spent_nullifier_is_final_witness :
  let st1 := MkState ∅ ({[ VString "22" ]} ∪ ∅) None in
  let st2 := MkState ∅ ({[ VString "5" ]} ∪ ({[ VString "22" ]} ∪ ∅)) None in
  withdraw (G := toyGroth16) initial (Some ()) (VString "22") true [11; 22; 500; 40; 1]
    = (st1, Ok (Some 40, Some 500))
  ∧ run (P := toyPoseidon) (G := toyGroth16) st1
      [Withdraw (G := toyGroth16) (Some ()) (VString "5") true []] = st2
  ∧ withdraw (G := toyGroth16) st2 (Some ()) (VString "22") true [12; 22; 501; 41; 1]
    = (st2, Throw NullifierSpent)
  ∧ Forall (λ nh', (withdraw (G := toyGroth16) st2 (Some ()) nh' true
                      [11; 22; 500; 40; 1]).2 = Ok (Some 40, Some 500))
      [VString "0x16"; VNumber 22; VBigInt 22].
Proof.
  intros st1 st2.
  assert (withdraw (G := toyGroth16) initial (Some ()) (VString "22") true
            [11; 22; 500; 40; 1] = (st1, Ok (Some 40, Some 500))) as Hfirst.
  { exact (withdraw_unspent (G := toyGroth16) initial () (VString "22") true
             [11; 22; 500; 40; 1] (not_elem_of_empty _) eq_refl). }
  assert (run (P := toyPoseidon) (G := toyGroth16) st1
            [Withdraw (G := toyGroth16) (Some ()) (VString "5") true []] = st2)
    as Hrun.
  { assert (VString "5" ∉ spentNullifiers st1) as Hnew.
    { cbn [st1 spentNullifiers].
      rewrite elem_of_union, elem_of_singleton, elem_of_empty. by intros [? | ?]. }
    exact (f_equal fst (withdraw_unspent (G := toyGroth16) st1 () (VString "5")
                          true [] Hnew eq_refl)). }
  pose proof (λ ps', spent_nullifier_is_final (P := toyPoseidon) (G := toyGroth16)
           (V := PrivaxProtocol.MockVerifier true) (T := PrivaxProtocol.StandardERC20)
           initial st1 (Some ()) (VString "22") true [11; 22; 500; 40; 1]
           (Some 40, Some 500)
           [Withdraw (G := toyGroth16) (Some ()) (VString "5") true []]
           (Some ()) true ps' 1000 2000
           (PrivaxFacts.funded 100 0) (PrivaxProtocol.Deposit 7 0 1) Hfirst)
    as Hfinal.
  rewrite Hrun in Hfinal.
  split; [exact Hfirst |]. split; [exact Hrun |].
  split; [exact (proj1 (Hfinal [12; 22; 501; 41; 1])) |].
  assert (∀ nh', nh' ≠ VString "22" → nh' ≠ VString "5" →
            nh' ∉ spentNullifiers st2) as Hother.
  { intros nh' Hne22 Hne5. cbn [st2 spentNullifiers].
    rewrite !elem_of_union, !elem_of_singleton, elem_of_empty.
    by intros [? | [? | ?]]. }
  repeat apply Forall_cons_2; [.. | apply Forall_nil_2];
    apply (proj1 (proj2 (Hfinal [11; 22; 500; 40; 1])) _ ());
    first [ apply Hother; discriminate | reflexivity ].
Defined.

Lemma new_has_room {P : Poseidon} (D : nat) :
  (MerkleTree.filled (MerkleTree.new D) < MerkleTree.capacity (MerkleTree.new D))%nat.
Proof.
  change (0 < 2 ^ D)%nat. apply Nat.neq_0_lt_0, Nat.pow_nonzero. done.
Qed.

(** The state [initialize] leaves behind when called first. *)
Definition initialized {P : Poseidon} : State :=
  MkState ∅ ∅ (Some (MerkleTree.new 20)).

(** The claim that the secrets stay with the depositor, on the reference
    flow: after a [deposit] that returned, no entry of [deposits] holds the
    secret or the nullifier secret drawn for the note. *)
Definition secrets_stay_with_depositor (P : Poseidon) : Prop :=
  ∀ st rnd now amount userAddress st' data,
    deposit st rnd now amount userAddress = (st', Ok data) →
    ∀ c info, deposits st' !! c = Some info →
      secret info ≠ rnd.1 ∧ nullifierSecret info ≠ rnd.2.

(** C3, refuted as stated. Whatever the hash, the first [deposit] after
    [initialize] leaves the drawn secret 111 and nullifier secret 222 in the
    entry of [deposits] under the commitment. *)
Lemma deposit_store_holds_the_secrets :
  ¬ ∃ P : Poseidon, secrets_stay_with_depositor P.
Proof.
  intros [P Hclaim].
  pose proof (FlowFacts.deposit_room (P := P) initialized (111, 222) 0 40 7
                (MerkleTree.new 20) eq_refl (new_has_room 20)) as Hdeposit.
  cbv zeta in Hdeposit.
  destruct (Hclaim _ _ _ _ _ _ _ Hdeposit _ _ (lookup_insert_eq _ _ _)) as [Hsecret _].
  by apply Hsecret.
Qed.

(** The first deposit after [initialize], with the draws 111 and 222. *)
Lemma deposit_files_the_secrets_witness :
  let P := toyPoseidon in
  merkleTree (initialized (P := P)) = Some (MerkleTree.new (H := P) 20)
  ∧ (MerkleTree.filled (MerkleTree.new (H := P) 20)
     < MerkleTree.capacity (MerkleTree.new (H := P) 20))%nat
  ∧ ∃ info,
      deposits (deposit (P := P) (initialized (P := P)) (111, 222) 0 40 7).1
        !! MerkleTree.generateCommitment (H := P) 40 111 222 = Some info
      ∧ secret info = 111 ∧ nullifierSecret info = 222.
Proof.
  intros P.
  split; [reflexivity |]. split; [apply new_has_room |].
  exact (proj1 (proj2 (deposit_files_the_secrets (P := P) initialized
           (111, 222) 0 40 7 (MerkleTree.new 20) eq_refl (new_has_room 20)))).
Defined.

End FlowFacts.

(** ** Further properties of the ledger contract *)
Module PrivaxExtras.
Import PrivaxProtocol PrivaxDeployment.

Section Contract.
Context {V : IVerifier} {T : IERC20}.
Variables (this tokenAddress : address).

Local Abbreviation execTx := (execTx this tokenAddress).
Local Abbreviation execAll := (execAll this tokenAddress).
Local Abbreviation dispatch := (dispatch this tokenAddress).

Lemma deposit_storage w sender amount commitment w' events :
  deposit this tokenAddress w sender amount commitment = Success (w', events) →
  storage w' = storage w.
Proof.
  unfold deposit, require, checked_add. intros Hd.
  destruct (0 <? amount); simpl in Hd; [| done].
  destruct (transferFrom _ _ _ _ _) as [token' |]; [| done].
  destruct (2 ^ 256 <=? _); simpl in Hd; [done |].
  destruct (_ =? _); simpl in Hd; [| done].
  by injection Hd as <- _.
Qed.

Lemma withdraw_storage w sender a b c pi recipient amount w' events :
  withdraw this tokenAddress w sender a b c pi recipient amount
    = Success (w', events) →
  storage w' = storage w.
Proof.
  unfold withdraw, require, checked_add, index. intros Hw.
  destruct (0 <? amount); simpl in Hw; [| done].
  destruct (bool_decide (recipient = 0)); simpl in Hw; [done |].
  destruct (bool_decide (length pi = _)); simpl in Hw; [| done].
  destruct (pi !! 2%nat); simpl in Hw; [| done].
  destruct (uint160 recipient =? _); simpl in Hw; [| done].
  destruct (pi !! 3%nat); simpl in Hw; [| done].
  destruct (amount =? _); simpl in Hw; [| done].
  destruct (verifyProof a b c pi); simpl in Hw; [| done].
  destruct (pi !! 1%nat); simpl in Hw; [| done].
  destruct (transfer _ _ _ _) as [token' |]; [| done].
  destruct (2 ^ 256 <=? _); simpl in Hw; [done |].
  destruct (_ =? _); simpl in Hw; [| done].
  by injection Hw as <- _.
Qed.

(** An [onlyAdmin] function called by someone else. *)
Lemma onlyAdmin_rejects w tx :
  onlyAdmin tx = true → txSender tx ≠ admin (storage w) →
  dispatch w tx = Revert (Require "Privax: Caller is not the admin").
Proof.
  intros Hguard Hsender.
  destruct tx as [c | sender r | sender r | sender a]; simpl in *; [done | ..];
    unfold addRelayer, removeRelayer, transferOwnership, require.
  all: by rewrite (bool_decide_eq_false_2 _ Hsender).
Qed.

(** X1. Access control. A transaction sent by anyone but the current admin
    leaves the contract's storage, admin and relayer whitelist, as it was;
    if it calls [addRelayer], [removeRelayer] or [transferOwnership], it
    reverts with 'Privax: Caller is not the admin'. *)
Theorem storage_changes_only_by_admin (w : World) (tx : Tx) :
  txSender tx ≠ admin (storage w) →
  storage (execTx w tx).1 = storage w
  ∧ (onlyAdmin tx = true →
     execTx w tx = (w, Revert (Require "Privax: Caller is not the admin"))).
Proof.
  intros Hsender. split.
  - unfold PrivaxDeployment.execTx.
    destruct (dispatch w tx) as [[w' events] | f] eqn:Hd; [| done]. simpl.
    destruct tx as [[s amt cm | s a b c pi r amt] | s r | s r | s a].
    + exact (deposit_storage w s amt cm w' events Hd).
    + exact (withdraw_storage w s a b c pi r amt w' events Hd).
    + by rewrite (onlyAdmin_rejects w (AddRelayer s r) eq_refl Hsender) in Hd.
    + by rewrite (onlyAdmin_rejects w (RemoveRelayer s r) eq_refl Hsender) in Hd.
    + by rewrite (onlyAdmin_rejects w (TransferOwnership s a) eq_refl Hsender) in Hd.
  - intros Hguard. unfold PrivaxDeployment.execTx.
    by rewrite (onlyAdmin_rejects w tx Hguard Hsender).
Qed.

(** X2. The token is out of reach of the admin functions, and the storage
    out of reach of [deposit] and [withdraw]: an [onlyAdmin] transaction,
    whoever sends it, leaves every token balance as it was, and a [deposit]
    or [withdraw] leaves the admin and the whitelist as they were. *)
Theorem admin_and_funds_are_separate (w : World) (tx : Tx) :
  if onlyAdmin tx then token (execTx w tx).1 = token w
  else storage (execTx w tx).1 = storage w.
Proof.
  unfold PrivaxDeployment.execTx.
  destruct tx as [[s amt cm | s a b c pi r amt] | s r | s r | s a]; simpl.
  - destruct (deposit _ _ _ _ _ _) as [[w' events] | f] eqn:Hd; [| done].
    exact (deposit_storage w s amt cm w' events Hd).
  - destruct (withdraw _ _ _ _ _ _ _ _ _ _) as [[w' events] | f] eqn:Hw; [| done].
    exact (withdraw_storage w s a b c pi r amt w' events Hw).
  - unfold addRelayer, require.
    by repeat (match goal with |- context [if ?c then _ else _] => destruct c end; simpl).
  - unfold removeRelayer, require.
    by repeat (match goal with |- context [if ?c then _ else _] => destruct c end; simpl).
  - unfold transferOwnership, require.
    by repeat (match goal with |- context [if ?c then _ else _] => destruct c end; simpl).
Qed.

Lemma addRelayer_admin w r :
  addRelayer w (admin (storage w)) r =
    if bool_decide (r = 0) then Revert (Require "Privax: Invalid relayer address")
    else if isRelayer w r then Revert (Require "Privax: Relayer already whitelisted")
    else Success
           (MkWorld (MkStorage (admin (storage w))
                       (<[r := true]> (whitelistedRelayers (storage w))))
              (token w), [RelayerAdded r]).
Proof.
  unfold addRelayer, require.
  rewrite (bool_decide_eq_true_2 (admin (storage w) = admin (storage w)) eq_refl).
  simpl. destruct (bool_decide (r = 0)); simpl; [done |].
  by destruct (isRelayer w r).
Qed.

Lemma removeRelayer_admin w r :
  removeRelayer w (admin (storage w)) r =
    if isRelayer w r then
      Success
        (MkWorld (MkStorage (admin (storage w))
                    (<[r := false]> (whitelistedRelayers (storage w))))
           (token w), [RelayerRemoved r])
    else Revert (Require "Privax: Relayer not whitelisted").
Proof.
  unfold removeRelayer, require.
  rewrite (bool_decide_eq_true_2 (admin (storage w) = admin (storage w)) eq_refl).
  simpl. by destruct (isRelayer w r).
Qed.

Lemma transferOwnership_admin w a :
  transferOwnership w (admin (storage w)) a =
    if bool_decide (a = 0)
    then Revert (Require "Privax: New admin cannot be the zero address")
    else Success
           (MkWorld (MkStorage a (whitelistedRelayers (storage w))) (token w),
            [AdminChanged (admin (storage w)) a]).
Proof.
  unfold transferOwnership, require.
  rewrite (bool_decide_eq_true_2 (admin (storage w) = admin (storage w)) eq_refl).
  simpl. by destruct (bool_decide (a = 0)).
Qed.

(** X3. The relayer whitelist. For a non-zero address that is not whitelisted,
    the admin's [addRelayer] goes through, emits [RelayerAdded] and makes
    [isRelayer] true for that address and for no other; a second
    [addRelayer] is refused; the admin's [removeRelayer] then goes through,
    emits [RelayerRemoved] and restores [isRelayer] for every address; a
    second [removeRelayer] is refused. *)
Theorem relayer_whitelist_roundtrip (w : World) (r : address) :
  r ≠ 0 → isRelayer w r = false →
  ∃ w1 w2 : World,
    execTx w (AddRelayer (admin (storage w)) r) = (w1, Success [RelayerAdded r])
    ∧ isRelayer w1 r = true
    ∧ (∀ a, a ≠ r → isRelayer w1 a = isRelayer w a)
    ∧ execTx w1 (AddRelayer (admin (storage w)) r)
      = (w1, Revert (Require "Privax: Relayer already whitelisted"))
    ∧ execTx w1 (RemoveRelayer (admin (storage w)) r)
      = (w2, Success [RelayerRemoved r])
    ∧ (∀ a, isRelayer w2 a = isRelayer w a)
    ∧ execTx w2 (RemoveRelayer (admin (storage w)) r)
      = (w2, Revert (Require "Privax: Relayer not whitelisted")).
Proof.
  intros Hr Hnot.
  set (w1 := MkWorld (MkStorage (admin (storage w))
                        (<[r := true]> (whitelistedRelayers (storage w))))
               (token w)).
  set (w2 := MkWorld (MkStorage (admin (storage w))
                        (<[r := false]> (whitelistedRelayers (storage w1))))
               (token w)).
  assert (isRelayer w1 r = true) as H1.
  { unfold isRelayer, w1. simpl. by rewrite lookup_insert_eq. }
  assert (isRelayer w2 r = false) as H2.
  { unfold isRelayer, w2. simpl. by rewrite lookup_insert_eq. }
  exists w1, w2. unfold PrivaxDeployment.execTx, PrivaxDeployment.dispatch.
  split_and!.
  - by rewrite addRelayer_admin, (bool_decide_eq_false_2 _ Hr), Hnot.
  - done.
  - intros a Ha. unfold isRelayer, w1. simpl. by rewrite lookup_insert_ne.
  - change (admin (storage w)) with (admin (storage w1)).
    by rewrite addRelayer_admin, (bool_decide_eq_false_2 _ Hr), H1.
  - change (admin (storage w)) with (admin (storage w1)).
    by rewrite removeRelayer_admin, H1.
  - intros a. destruct (decide (a = r)) as [-> | Ha]; [by rewrite H2, Hnot |].
    unfold isRelayer, w2, w1. simpl. by rewrite !lookup_insert_ne.
  - change (admin (storage w)) with (admin (storage w2)).
    by rewrite removeRelayer_admin, H2.
Qed.

(** X4. Handing over ownership. The admin's [transferOwnership] to a
    non-zero address goes through, emits [AdminChanged] with the old and the
    new admin, makes the new address the admin and leaves whitelist and
    token as they were; from then on every [onlyAdmin] call of the old admin
    is refused.  A transfer to the zero address is refused. *)
Theorem ownership_handover (w : World) (newAdmin : address) :
  newAdmin ≠ 0 → newAdmin ≠ admin (storage w) →
  ∃ w1 : World,
    execTx w (TransferOwnership (admin (storage w)) newAdmin)
      = (w1, Success [AdminChanged (admin (storage w)) newAdmin])
    ∧ admin (storage w1) = newAdmin
    ∧ whitelistedRelayers (storage w1) = whitelistedRelayers (storage w)
    ∧ token w1 = token w
    ∧ (∀ tx, onlyAdmin tx = true → txSender tx = admin (storage w) →
         execTx w1 tx = (w1, Revert (Require "Privax: Caller is not the admin")))
    ∧ execTx w (TransferOwnership (admin (storage w)) 0)
      = (w, Revert (Require "Privax: New admin cannot be the zero address")).
Proof.
  intros Hnz Hnew.
  exists (MkWorld (MkStorage newAdmin (whitelistedRelayers (storage w))) (token w)).
  unfold PrivaxDeployment.execTx at 1 3. unfold PrivaxDeployment.dispatch.
  split_and!; try done.
  - by rewrite transferOwnership_admin, (bool_decide_eq_false_2 _ Hnz).
  - intros tx Hguard Hsender. unfold PrivaxDeployment.execTx.
    rewrite onlyAdmin_rejects; [done | done |].
    simpl. rewrite Hsender. intros Heq. by apply Hnew.
  - by rewrite transferOwnership_admin.
Qed.

(** What holds of the storage from the constructor on. *)
Definition storage_ok (st : Storage) : Prop :=
  admin st ≠ 0 ∧ default false (whitelistedRelayers st !! 0) = false.

Lemma execTx_storage_ok w tx :
  storage_ok (storage w) → storage_ok (storage (execTx w tx).1).
Proof.
  intros [Hadmin Hzero]. unfold PrivaxDeployment.execTx.
  destruct (dispatch w tx) as [[w' events] | f] eqn:Hd; [| done]. simpl.
  destruct tx as [[s amt cm | s a b c pi r amt] | s r | s r | s a]; simpl in Hd.
  - by rewrite (deposit_storage w s amt cm w' events Hd).
  - by rewrite (withdraw_storage w s a b c pi r amt w' events Hd).
  - unfold addRelayer, require in Hd.
    destruct (bool_decide (s = _)); simpl in Hd; [| done].
    destruct (bool_decide (r = 0)) eqn:Hr; simpl in Hd; [done |].
    destruct (isRelayer w r); simpl in Hd; [done |].
    injection Hd as <- _. split; simpl; [done |].
    apply bool_decide_eq_false in Hr. by rewrite lookup_insert_ne.
  - unfold removeRelayer, require in Hd.
    destruct (bool_decide (s = _)); simpl in Hd; [| done].
    destruct (isRelayer w r); simpl in Hd; [| done].
    injection Hd as <- _. split; simpl; [done |].
    destruct (decide (r = 0)) as [-> | Hr];
      [by rewrite lookup_insert_eq | by rewrite lookup_insert_ne].
  - unfold transferOwnership, require in Hd.
    destruct (bool_decide (s = _)); simpl in Hd; [| done].
    destruct (bool_decide (a = 0)) eqn:Ha; simpl in Hd; [done |].
    injection Hd as <- _. split; simpl; [| done].
    by apply bool_decide_eq_false in Ha.
Qed.

Lemma execAll_storage_ok w txs :
  storage_ok (storage w) → storage_ok (storage (execAll w txs)).
Proof.
  revert w. induction txs as [| tx txs IH]; intros w Hok; [done |].
  simpl. apply IH. by apply execTx_storage_ok.
Qed.

(** X5. From deployment on, whatever transactions are sent and by whom, the
    admin is never the zero address and the zero address is never a
    whitelisted relayer, the deployer being a non-zero address.  The
    constructor makes the deployer the admin and emits [AdminChanged]. *)
Theorem admin_never_zero (sender _tokenAddress _verifierAddress : address)
    (st : Storage) (events : list Event) (tk : Token) (txs : list Tx) :
  sender ≠ 0 →
  constructor sender _tokenAddress _verifierAddress = Success (st, events) →
  admin st = sender
  ∧ events = [AdminChanged 0 sender]
  ∧ admin (storage (execAll (MkWorld st tk) txs)) ≠ 0
  ∧ isRelayer (execAll (MkWorld st tk) txs) 0 = false.
Proof.
  intros Hsender Hctor. unfold constructor, require in Hctor.
  destruct (bool_decide (_tokenAddress = 0)); simpl in Hctor; [done |].
  destruct (bool_decide (_verifierAddress = 0)); simpl in Hctor; [done |].
  injection Hctor as <- <-.
  destruct (execAll_storage_ok (MkWorld (MkStorage sender ∅) tk) txs)
    as [Hadmin Hzero]; [by split |].
  by split_and!.
Qed.

(** X6. What a [withdraw] that goes through has checked and done: the
    amount is positive, the recipient is not the zero address, there are five
    public inputs of which entries 2 and 3 are the recipient and the amount,
    the verifier accepted, the token's [transfer] from the contract raised
    the recipient's balance by exactly the amount, the contract's storage is
    as it was, and one [WithdrawalOccurred] carries entry 1 of the public
    inputs as nullifier hash.  A [withdraw] that reverts changes nothing.
    The caller plays no part: any sender gets the same result. *)
Theorem withdraw_pays_recipient (w : World) (sender : address) a b c
    (pi : list Z) (recipient : address) (amount : uint256) :
  match exec this tokenAddress w (Withdraw sender a b c pi recipient amount) with
  | (w', Success events) =>
      0 < amount ∧ recipient ≠ 0 ∧ length pi = 5%nat
      ∧ pi !! 2%nat = Some (uint160 recipient) ∧ pi !! 3%nat = Some amount
      ∧ verifyProof a b c pi = true
      ∧ transfer (token w) this recipient amount = Some (token w')
      ∧ balanceOf (token w') recipient = balanceOf (token w) recipient + amount
      ∧ storage w' = storage w
      ∧ ∃ nullifierHash, pi !! 1%nat = Some nullifierHash
          ∧ events = [WithdrawalOccurred nullifierHash recipient tokenAddress amount]
  | (w', Revert f) => w' = w
  end
  ∧ ∀ sender',
      exec this tokenAddress w (Withdraw sender' a b c pi recipient amount)
      = exec this tokenAddress w (Withdraw sender a b c pi recipient amount).
Proof.
  split; [| done].
  unfold exec, call, withdraw, require, checked_add, index,
    REQUIRED_PUBLIC_INPUTS_COUNT.
  destruct (Z.ltb_spec 0 amount) as [Hpos | ?]; simpl; [| done].
  destruct (bool_decide (recipient = 0)) eqn:Hrcp; simpl; [done |].
  apply bool_decide_eq_false in Hrcp.
  destruct (bool_decide (length pi = 5%nat)) eqn:Hlen; simpl; [| done].
  apply bool_decide_eq_true in Hlen.
  destruct (pi !! 2%nat) as [rc |]; simpl; [| done].
  destruct (Z.eqb_spec (uint160 recipient) rc) as [<- | ?]; simpl; [| done].
  destruct (pi !! 3%nat) as [am |]; simpl; [| done].
  destruct (Z.eqb_spec amount am) as [<- | ?]; simpl; [| done].
  destruct (verifyProof a b c pi) eqn:Hv; simpl; [| done].
  destruct (pi !! 1%nat) as [nh |]; simpl; [| done].
  destruct (transfer (token w) this recipient amount) as [token' |] eqn:Ht;
    simpl; [| done].
  destruct (Z.leb_spec (2 ^ 256) (balanceOf (token w) recipient + amount));
    simpl; [done |].
  destruct (Z.eqb_spec (balanceOf token' recipient)
              (balanceOf (token w) recipient + amount)); simpl; [| done].
  split_and!; try done. by exists nh.
Qed.

End Contract.

(** The deployment used to run the contract. *)
Definition standard (escrow purse : Z) : World (T := StandardERC20) :=
  PrivaxFacts.funded escrow purse.

(** Account 7, not the admin, tries to whitelist account 9. *)
Lemma storage_changes_only_by_admin_witness :
  txSender (AddRelayer 7 9) ≠ admin (storage (standard 100 0))
  ∧ execTx (V := MockVerifier true) 1000 2000 (standard 100 0) (AddRelayer 7 9)
    = (standard 100 0, Revert (Require "Privax: Caller is not the admin")).
Proof.
  assert (txSender (AddRelayer 7 9) ≠ admin (storage (standard 100 0))) as Hne
    by (simpl; lia).
  split; [exact Hne |].
  exact (proj2 (storage_changes_only_by_admin (V := MockVerifier true) 1000 2000
                  (standard 100 0) (AddRelayer 7 9) Hne) eq_refl).
Defined.

(** Account 9 is whitelisted and removed again by the admin, account 1. *)
Lemma relayer_whitelist_roundtrip_witness :
  (9 : Z) ≠ 0 ∧ isRelayer (standard 100 0) 9 = false
  ∧ ∃ w1 : World,
      execTx (V := MockVerifier true) 1000 2000 (standard 100 0) (AddRelayer 1 9)
        = (w1, Success [RelayerAdded 9])
      ∧ isRelayer w1 9 = true.
Proof.
  assert ((9 : Z) ≠ 0) as Hnz by lia.
  assert (isRelayer (standard 100 0) 9 = false) as Hnot by reflexivity.
  split; [exact Hnz |]. split; [exact Hnot |].
  destruct (relayer_whitelist_roundtrip (V := MockVerifier true) 1000 2000
              (standard 100 0) 9 Hnz Hnot) as (w1 & w2 & Hadd & Hin & _).
  exists w1. split; [exact Hadd | exact Hin].
Defined.

(** The admin, account 1, hands the contract over to account 5. *)
Lemma ownership_handover_witness :
  (5 : Z) ≠ 0 ∧ (5 : Z) ≠ admin (storage (standard 100 0))
  ∧ ∃ w1 : World,
      execTx (V := MockVerifier true) 1000 2000 (standard 100 0)
        (TransferOwnership 1 5) = (w1, Success [AdminChanged 1 5])
      ∧ admin (storage w1) = 5.
Proof.
  assert ((5 : Z) ≠ 0) as Hnz by lia.
  assert ((5 : Z) ≠ admin (storage (standard 100 0))) as Hnew by (simpl; lia).
  split; [exact Hnz |]. split; [exact Hnew |].
  destruct (ownership_handover (V := MockVerifier true) 1000 2000
              (standard 100 0) 5 Hnz Hnew) as (w1 & Hgo & Hadmin & _).
  exists w1. split; [exact Hgo | exact Hadmin].
Defined.

(** Account 1 deploys the contract for the token at 2000 and the verifier at
    3000; account 7 then tries to take it over. *)
Lemma admin_never_zero_witness :
  (1 : Z) ≠ 0
  ∧ constructor 1 2000 3000 = Success (MkStorage 1 ∅, [AdminChanged 0 1])
  ∧ admin (storage (execAll (V := MockVerifier true) 1000 2000
                      (MkWorld (T := StandardERC20) (MkStorage 1 ∅)
                         (token (standard 100 0)))
                      [TransferOwnership 7 0; AddRelayer 7 0])) ≠ 0.
Proof.
  assert ((1 : Z) ≠ 0) as Hnz by lia.
  assert (constructor 1 2000 3000 = Success (MkStorage 1 ∅, [AdminChanged 0 1]))
    as Hctor by reflexivity.
  split; [exact Hnz |]. split; [exact Hctor |].
  exact (proj1 (proj2 (proj2 (admin_never_zero (V := MockVerifier true)
           (T := StandardERC20) 1000 2000 1 2000 3000 (MkStorage 1 ∅)
           [AdminChanged 0 1] (token (standard 100 0))
           [TransferOwnership 7 0; AddRelayer 7 0] Hnz Hctor)))).
Defined.

End PrivaxExtras.

(** ** Further properties of the commitment tree *)
Module TreeExtras.
Import MerkleTree MerkleTreeFacts.

Section WithHash.
Context `{Poseidon}.

Lemma insertAll_app tr cs1 cs2 :
  insertAll tr (cs1 ++ cs2) = insertAll (insertAll tr cs1) cs2.
Proof. unfold insertAll. by rewrite foldl_app. Qed.

Lemma insertAll_full tr cs :
  (capacity tr ≤ filled tr)%nat → insertAll tr cs = tr.
Proof.
  intros Hfull. induction cs as [| c cs IH]; [done |].
  simpl. by rewrite insert_full.
Qed.

Lemma insert_levels tr c : levels (insert tr c).1 = levels tr.
Proof. unfold insert. by destruct (_ <=? _)%nat. Qed.

Lemma insertAll_levels_new D cs : levels (insertAll (new D) cs) = D.
Proof.
  change D with (levels (new D)) at 2. generalize (new D).
  induction cs as [| c cs IH]; intros tr; [done |].
  simpl. by rewrite IH, insert_levels.
Qed.

(** The leaf array after any sequence of [insert] calls, the calls made on a
    full tree included. *)
Lemma insertAll_leaves tr cs :
  wf tr →
  let room := (capacity tr - filled tr)%nat in
  filled (insertAll tr cs) = (filled tr + length cs `min` room)%nat
  ∧ leaves (insertAll tr cs)
    = take (filled tr) (leaves tr) ++ take room cs
        ++ drop (filled tr + length cs `min` room) (leaves tr).
Proof.
  intros [Hcap Hlen Hfill Hz] room.
  assert (insertAll tr cs
          = insertAll (insertAll tr (take room cs)) (drop room cs)) as ->.
  { by rewrite <- insertAll_app, take_drop. }
  destruct (insertAll_room tr (take room cs)) as (Hf & Hc & Hl).
  { rewrite length_take. lia. }
  { done. }
  rewrite length_take, (Nat.min_comm room) in Hf, Hl.
  destruct (decide (length cs ≤ room)%nat) as [Hle | Hgt].
  - rewrite (drop_ge cs room) by done. simpl. by rewrite Hf, Hl.
  - rewrite insertAll_full by lia. by rewrite Hf, Hl.
Qed.

(** X7. The tree is append-only. Whatever commitments are inserted, and
    however many, the slots below the old fill pointer keep their values,
    the commitments land in order in the slots from the old fill pointer
    up to the capacity, those for which no slot is left are dropped, and the
    fill pointer ends at the smaller of the capacity and the old pointer
    plus the number of calls. *)
Theorem insert_is_append_only (tr : t) (cs : list Z) :
  wf tr →
  let tr' := insertAll tr cs in
  filled tr' = ((filled tr + length cs) `min` capacity tr)%nat
  ∧ (∀ j, (j < filled tr)%nat → leaves tr' !! j = leaves tr !! j)
  ∧ (∀ j, (filled tr + j < capacity tr)%nat → (j < length cs)%nat →
       leaves tr' !! (filled tr + j)%nat = cs !! j)
  ∧ (∀ j, (filled tr' ≤ j)%nat → leaves tr' !! j = leaves tr !! j).
Proof.
  intros Hwf tr'. subst tr'.
  destruct (insertAll_leaves tr cs Hwf) as [Hf Hl].
  destruct Hwf as [Hcap Hlen Hfill Hz].
  cbv zeta in Hf, Hl. rewrite Hf, Hl.
  assert (length (take (filled tr) (leaves tr)) = filled tr) as Htake
    by (rewrite length_take; lia).
  split_and!.
  - lia.
  - intros j Hj. rewrite lookup_app_l by lia. by rewrite lookup_take_lt.
  - intros j Hroom Hj. rewrite lookup_app_r by lia.
    rewrite Htake, Nat.add_comm, Nat.add_sub.
    rewrite lookup_app_l by (rewrite length_take; lia).
    apply lookup_take_lt. lia.
  - intros j Hj. rewrite lookup_app_r by lia. rewrite Htake.
    rewrite lookup_app_r by (rewrite length_take; lia).
    rewrite length_take, lookup_drop. f_equal. lia.
Qed.

(** *** The zero table *)

Lemma zeros_from_lookup z n i :
  (i ≤ n)%nat →
  zeros_from z n !! i = Some (Nat.iter i (λ x, poseidonHash [x; x]) z).
Proof.
  revert z i. induction n as [| n IH]; intros z [| i] Hi; try done; try lia.
  rewrite Nat.iter_succ_r. cbn [zeros_from lookup list_lookup]. apply IH. lia.
Qed.

Lemma specZero_iter i : specZero i = Nat.iter i (λ x, poseidonHash [x; x]) 0.
Proof. induction i as [| i IH]; simpl; [done | by rewrite IH]. Qed.

Lemma zeros_lookup tr i :
  wf tr → (i ≤ levels tr)%nat → zeros tr !! i = Some (specZero i).
Proof.
  intros Hwf Hi. rewrite (wf_zeros _ Hwf). unfold _calculateZeros.
  by rewrite zeros_from_lookup, specZero_iter.
Qed.

(** X8. The table computed by [_calculateZeros(levels)] has [levels + 1]
    entries; entry 0 is 0 and every later entry is the hash of the pair made
    of the entry before it, twice. *)
Theorem calculateZeros_table (levels : nat) :
  length (_calculateZeros levels) = S levels
  ∧ _calculateZeros levels !! 0%nat = Some 0
  ∧ ∀ i z, (i < levels)%nat → _calculateZeros levels !! i = Some z →
      _calculateZeros levels !! S i = Some (poseidonHash [z; z]).
Proof.
  unfold _calculateZeros. split_and!.
  - apply length_zeros_from.
  - by rewrite zeros_from_lookup by lia.
  - intros i z Hi Hz. rewrite zeros_from_lookup in Hz by lia.
    injection Hz as <-. by rewrite zeros_from_lookup by lia.
Qed.

(** *** The root *)

(** The node at position [k] of level [L] of the binary tree over a leaf
    array: a leaf at level 0, the hash of its two children above. *)
Fixpoint nodeAt (leaves : list Z) (L k : nat) : Z :=
  match L with
  | O => default 0 (leaves !! k)
  | S L' => poseidonHash [nodeAt leaves L' (2 * k); nodeAt leaves L' (2 * k + 1)]
  end.

(** The slots at and above the fill pointer hold 0, as the constructor
    leaves them. *)
Definition zero_above (tr : t) : Prop :=
  ∀ j, (filled tr ≤ j)%nat → default 0 (leaves tr !! j) = 0.

Lemma zero_above_new D : zero_above (new D).
Proof.
  intros j _. simpl. destruct (decide (j < 2 ^ D)%nat).
  - by rewrite lookup_replicate_2.
  - by rewrite lookup_ge_None_2 by (rewrite length_replicate; lia).
Qed.

Lemma zero_above_insert tr c : zero_above tr → zero_above (insert tr c).1.
Proof.
  intros Hz. destruct (decide (filled tr < capacity tr)%nat) as [Hroom | Hfull].
  - rewrite insert_room by done. intros j Hj. simpl in *.
    rewrite list_lookup_insert_ne by lia. apply Hz. lia.
  - by rewrite insert_full by lia.
Qed.

Lemma zero_above_insertAll tr cs : zero_above tr → zero_above (insertAll tr cs).
Proof.
  revert tr. induction cs as [| c cs IH]; intros tr Hz; [done |].
  simpl. apply IH. by apply zero_above_insert.
Qed.

(** A node none of whose leaves is filled is the zero constant of its level. *)
Lemma nodeAt_zero tr L k :
  zero_above tr → (filled tr ≤ k)%nat → nodeAt (leaves tr) L k = specZero L.
Proof.
  intros Hz. revert k. induction L as [| L IH]; intros k Hk; simpl.
  - by apply Hz.
  - by rewrite !IH by lia.
Qed.

(** What [getRoot] reads for the child at slot [j] of [hashes]. *)
Definition child (src : Source) (tr : t) (level : nat) (hashes : list Z) (j : nat)
    : option Z :=
  if (j <? filled tr)%nat then hashes !! j else zerosAt src tr level.

(** One pass of the inner loop over the slots [i .. i + n - 1]: when every
    child it reads is there, the pass ends, slot [k] of the range holds the
    hash [v k] of its two children and the other slots are untouched. *)
Lemma getRoot_inner_pass src tr level (v : nat → Z) n i hashes :
  (i + n ≤ length hashes)%nat →
  (∀ k, (i ≤ k < i + n)%nat → ∃ l r,
      child src tr level hashes (k * 2) = Some l
      ∧ child src tr level hashes (k * 2 + 1) = Some r
      ∧ v k = poseidonHash [l; r]) →
  ∃ hashes',
    getRoot_inner src tr level n i hashes = Ok hashes'
    ∧ length hashes' = length hashes
    ∧ (∀ k, (i ≤ k < i + n)%nat → hashes' !! k = Some (v k))
    ∧ (∀ k, ¬ (i ≤ k < i + n)%nat → hashes' !! k = hashes !! k).
Proof.
  revert i hashes. induction n as [| n IH]; intros i hashes Hlen Hread.
  { exists hashes. split_and!; [done | done | intros; lia | done]. }
  destruct (Hread i) as (l & r & Hl & Hr & Hv); [lia |].
  cbn [getRoot_inner]. unfold child in Hl, Hr. rewrite Hl, Hr.
  cbn [toString mbind result_bind]. rewrite <- Hv.
  destruct (IH (S i) (<[i := v i]> hashes)) as (hashes' & Hrun & Hlen' & Hin & Hout).
  { rewrite length_insert. lia. }
  { intros k Hk. destruct (Hread k) as (l' & r' & Hl' & Hr' & Hv'); [lia |].
    exists l', r'. unfold child in *.
    rewrite !list_lookup_insert_ne by lia. done. }
  exists hashes'. rewrite length_insert in Hlen'. split_and!; [done | done | |].
  - intros k Hk. destruct (decide (k = i)) as [-> | Hne].
    + rewrite Hout by lia. apply list_lookup_insert_eq. lia.
    + apply Hin. lia.
  - intros k Hk. rewrite Hout by lia. apply list_lookup_insert_ne. lia.
Qed.

(** The zero table can be read, or is never needed. *)
Definition zeros_readable (src : Source) (tr : t) : Prop :=
  src = merkleTree_ts ∨ filled tr = capacity tr.

Lemma pow2_halve n : (0 < n)%nat → (2 ^ n / 2 = 2 ^ (n - 1))%nat.
Proof.
  intros Hn. replace n with (S (n - 1)) at 1 by lia.
  rewrite Nat.pow_succ_r', Nat.mul_comm. by rewrite Nat.div_mul.
Qed.

Lemma pow2_div D L : (L ≤ D)%nat → (2 ^ D / 2 ^ L = 2 ^ (D - L))%nat.
Proof. intros HL. symmetry. by apply Nat.pow_sub_r. Qed.

(** The outer loop, entered at level [L] with the nodes of that level in the
    first [2 ^ (levels - L)] slots, ends with the root in slot 0. *)
Lemma getRoot_outer_levels src tr n L hashes :
  wf tr → zero_above tr → zeros_readable src tr →
  (L + n = levels tr)%nat →
  length hashes = capacity tr →
  (∀ k, (k < 2 ^ (levels tr - L))%nat →
     hashes !! k = Some (nodeAt (leaves tr) L k)) →
  ∃ hashes',
    getRoot_outer src tr n L hashes = Ok hashes'
    ∧ hashes' !! 0%nat = Some (nodeAt (leaves tr) (levels tr) 0).
Proof.
  intros Hwf Hz Hsrc. revert L hashes.
  induction n as [| n IH]; intros L hashes HL Hlen Hnodes.
  { exists hashes. split; [done |].
    assert (levels tr = L) as HL' by lia. rewrite HL'.
    apply Hnodes. apply Nat.neq_0_lt_0, Nat.pow_nonzero. done. }
  cbn [getRoot_outer].
  rewrite (wf_capacity _ Hwf), pow2_div, pow2_halve by lia.
  assert (2 * 2 ^ (levels tr - L - 1) = 2 ^ (levels tr - L))%nat as Hdouble.
  { rewrite <- Nat.pow_succ_r'. f_equal. lia. }
  assert (2 ^ (levels tr - L) ≤ capacity tr)%nat as Hfit.
  { rewrite (wf_capacity _ Hwf). apply Nat.pow_le_mono_r; lia. }
  destruct (getRoot_inner_pass src tr L (nodeAt (leaves tr) (S L))
              (2 ^ (levels tr - L - 1)) 0 hashes)
    as (hashes1 & Hrun & Hlen1 & Hin & _).
  { lia. }
  { intros k Hk.
    assert (∀ j, (j < 2 ^ (levels tr - L))%nat →
              child src tr L hashes j = Some (nodeAt (leaves tr) L j)) as Hchild.
    { intros j Hj. unfold child.
      destruct (Nat.ltb_spec j (filled tr)) as [Hlt | Hge]; [by apply Hnodes |].
      destruct Hsrc as [-> | Hfull].
      - simpl. rewrite zeros_lookup by (done || lia).
        by rewrite nodeAt_zero.
      - lia. }
    exists (nodeAt (leaves tr) L (k * 2)), (nodeAt (leaves tr) L (k * 2 + 1)).
    rewrite !Hchild by lia. split_and!; [done | done |].
    cbn [nodeAt]. by rewrite (Nat.mul_comm 2 k). }
  rewrite Hrun. cbn [mbind result_bind].
  apply IH; [lia | lia |].
  intros k Hk. apply Hin.
  replace (levels tr - S L)%nat with (levels tr - L - 1)%nat in Hk by lia. lia.
Qed.

(** [getRoot] returns the root of the tree over the leaf array whenever the
    zero table can be read or is not needed. *)
Lemma getRoot_nodeAt src tr :
  wf tr → zero_above tr → zeros_readable src tr →
  getRoot src tr = Ok (Some (nodeAt (leaves tr) (levels tr) 0)).
Proof.
  intros Hwf Hz Hsrc. unfold getRoot.
  destruct (decide (filled tr = 0%nat)) as [Hempty | Hsome].
  - destruct Hsrc as [-> | Hfull].
    + rewrite zeros_lookup by done. simpl.
      rewrite nodeAt_zero by (done || lia). done.
    + pose proof (wf_capacity _ Hwf) as Hcap.
      assert (0 < 2 ^ levels tr)%nat by (apply Nat.neq_0_lt_0, Nat.pow_nonzero; done).
      lia.
  - destruct (getRoot_outer_levels src tr (levels tr) 0 (leaves tr))
      as (hashes' & Hrun & Hroot); try done.
    { apply (wf_leaves _ Hwf). }
    { intros k Hk. rewrite Nat.sub_0_r, <- (wf_capacity _ Hwf) in Hk.
      rewrite <- (wf_leaves _ Hwf) in Hk.
      apply lookup_lt_is_Some in Hk as [x Hx]. simpl. by rewrite Hx. }
    rewrite Hrun. cbn [mbind result_bind]. by rewrite Hroot.
Qed.

(** X9. In the TypeScript file, for every tree built by the constructor and
    any calls of [insert], [getRoot] returns the Merkle root of the leaf
    array: the value obtained by hashing the slots pairwise, level by level,
    the empty slots counting as 0.  For the empty tree this is the last entry
    of the zero table, which is what the shortcut for [filled === 0]
    returns. *)
Theorem getRoot_ts_is_merkle_root (D : nat) (cs : list Z) :
  let tr := insertAll (new D) cs in
  getRoot merkleTree_ts tr = Ok (Some (nodeAt (leaves tr) D 0))
  ∧ getRoot merkleTree_ts (new D) = Ok (Some (specZero D))
  ∧ _calculateZeros D !! D = Some (specZero D).
Proof.
  intros tr.
  assert (wf tr) as Hwf by apply wf_insertAll, wf_new.
  assert (zero_above tr) as Hz by apply zero_above_insertAll, zero_above_new.
  split_and!.
  - rewrite (getRoot_nodeAt merkleTree_ts tr Hwf Hz) by (by left).
    do 3 f_equal. apply insertAll_levels_new.
  - rewrite (getRoot_nodeAt merkleTree_ts (new D) (wf_new D) (zero_above_new D))
      by (by left).
    do 2 f_equal. by apply nodeAt_zero; [apply zero_above_new | simpl; lia].
  - apply (zeros_lookup (new D)); [apply wf_new | done].
Qed.

(** *** The JavaScript file, which reads the zero table off the promise *)

Lemma toString_throws v e : toString v = Throw e → e = TypeError.
Proof. destruct v; simpl; congruence. Qed.

(** A pass of the inner loop that has to read a zero constant throws. *)
Lemma getRoot_inner_js_throws tr level n i hashes :
  (∃ k, (i ≤ k < i + n)%nat ∧ (filled tr ≤ k * 2 + 1)%nat) →
  getRoot_inner merkleTree_js tr level n i hashes = Throw TypeError.
Proof.
  revert i hashes. induction n as [| n IH]; intros i hashes (k & Hk & Hzero); [lia |].
  cbn [getRoot_inner].
  destruct (toString (if (i * 2 <? filled tr)%nat then hashes !! (i * 2)%nat
                      else zerosAt merkleTree_js tr level)) as [l | e] eqn:Hl.
  2:{ apply toString_throws in Hl as ->. done. }
  cbn [mbind result_bind].
  destruct (decide (k = i)) as [-> | Hne].
  - destruct (Nat.ltb_spec (i * 2 + 1) (filled tr)); [lia | done].
  - destruct (toString (if (i * 2 + 1 <? filled tr)%nat
                        then hashes !! (i * 2 + 1)%nat
                        else zerosAt merkleTree_js tr level)) as [r | e] eqn:Hr.
    2:{ apply toString_throws in Hr as ->. done. }
    cbn [mbind result_bind]. apply IH. exists k. split; lia.
Qed.

Lemma getRoot_js_cases tr :
  wf tr → zero_above tr →
  getRoot merkleTree_js tr =
    if decide (filled tr = 0%nat) then Ok None
    else if decide (filled tr < capacity tr)%nat then Throw TypeError
    else Ok (Some (nodeAt (leaves tr) (levels tr) 0)).
Proof.
  intros Hwf Hz.
  destruct (decide (filled tr = 0%nat)) as [Hempty | Hsome].
  { unfold getRoot. by rewrite decide_True. }
  destruct (decide (filled tr < capacity tr)%nat) as [Hroom | Hfull].
  - unfold getRoot. rewrite decide_False by done.
    pose proof (wf_capacity _ Hwf) as Hcap.
    destruct (levels tr) as [| n] eqn:Hlev; [simpl in Hcap; lia |].
    cbn [getRoot_outer]. rewrite getRoot_inner_js_throws; [done |].
    rewrite Hcap. simpl (2 ^ 0)%nat. rewrite Nat.div_1_r, pow2_halve by lia.
    replace (S n - 1)%nat with n by lia.
    assert (0 < 2 ^ n)%nat by (apply Nat.neq_0_lt_0, Nat.pow_nonzero; done).
    rewrite Nat.pow_succ_r' in Hcap.
    exists (2 ^ n - 1)%nat. split; lia.
  - apply getRoot_nodeAt; [done | done |].
    right. pose proof (wf_filled _ Hwf). lia.
Qed.

(** X10. In the JavaScript file, for every tree built by the constructor and
    any calls of [insert], [getRoot] returns [undefined] while the tree is
    empty, throws a [TypeError] while the tree is neither empty nor full, and
    returns the Merkle root of the leaf array only once the tree is full. *)
Theorem getRoot_js_needs_full_tree (D : nat) (cs : list Z) :
  let tr := insertAll (new D) cs in
  getRoot merkleTree_js tr =
    if decide (filled tr = 0%nat) then Ok None
    else if decide (filled tr < capacity tr)%nat then Throw TypeError
    else Ok (Some (nodeAt (leaves tr) D 0)).
Proof.
  intros tr. subst tr.
  rewrite getRoot_js_cases by
    (apply wf_insertAll, wf_new || apply zero_above_insertAll, zero_above_new).
  by rewrite insertAll_levels_new.
Qed.

Lemma generateProof_loop_js tr n i currentIndex accE accI :
  generateProof_loop merkleTree_js tr n i currentIndex accE accI
  = generateProof_loop merkleTree_ts tr n i currentIndex accE accI
  ∨ generateProof_loop merkleTree_js tr n i currentIndex accE accI
    = Throw TypeError.
Proof.
  revert i currentIndex accE accI.
  induction n as [| n IH]; intros i currentIndex accE accI; [by left |].
  cbn [generateProof_loop].
  destruct (_ <? filled tr)%nat.
  - destruct (toString _) as [s | e]; cbn [mbind result_bind]; [apply IH | by left].
  - by right.
Qed.

(** X11. [generateProof] and the circuit's input shape. For every leaf that
    exists in a tree built by the constructor and [insert], the TypeScript
    [generateProof] returns: it gives one sibling and one index per level,
    and every index passes the circuit's binary check.  The JavaScript
    [generateProof] returns the same or throws a [TypeError]; it throws for
    the leaf inserted last when that leaf sits at an even position of a tree
    of at least one level. *)
Theorem generateProof_shape (D : nat) (cs : list Z) (index : nat) :
  let tr := insertAll (new D) cs in
  (index < filled tr)%nat →
  (∃ pathElements pathIndices,
      generateProof merkleTree_ts tr index = Ok (pathElements, pathIndices)
      ∧ length pathElements = D ∧ length pathIndices = D
      ∧ forallb Circuit.binary pathIndices = true)
  ∧ (generateProof merkleTree_js tr index = generateProof merkleTree_ts tr index
     ∨ generateProof merkleTree_js tr index = Throw TypeError)
  ∧ ((0 < D)%nat → (index mod 2 = 0)%nat → (index + 1 = filled tr)%nat →
     generateProof merkleTree_js tr index = Throw TypeError).
Proof.
  intros tr Hindex.
  assert (wf tr) as Hwf by apply wf_insertAll, wf_new.
  assert (levels tr = D) as HD by apply insertAll_levels_new.
  split_and!.
  - eexists _, _. rewrite generateProof_ts by done. rewrite HD.
    split_and!; [done | by rewrite length_map, length_seq ..|].
    apply forallb_forall. intros b Hb.
    apply in_map_iff in Hb as (i & <- & _).
    unfold codeBit. by destruct (decide _).
  - unfold generateProof. destruct (_ <=? _)%nat; [by left |].
    apply generateProof_loop_js.
  - intros Hpos Heven Hlast. unfold generateProof.
    destruct (Nat.leb_spec (filled tr) index); [lia |].
    rewrite HD. destruct D as [| n]; [lia |].
    cbn [generateProof_loop]. rewrite !decide_True by done.
    destruct (Nat.ltb_spec (index + 1) (filled tr)) as [? | _]; [lia |].
    reflexivity.
Qed.

(** *** The errors the tree throws *)

Lemma generateProof_loop_throws src tr n i currentIndex accE accI e :
  generateProof_loop src tr n i currentIndex accE accI = Throw e → e = TypeError.
Proof.
  revert i currentIndex accE accI.
  induction n as [| n IH]; intros i currentIndex accE accI; [done |].
  cbn [generateProof_loop].
  destruct (toString _) as [s | e'] eqn:Hs; cbn [mbind result_bind].
  - apply IH.
  - intros [= <-]. by eapply toString_throws.
Qed.

Lemma getRoot_inner_throws src tr level n i hashes e :
  getRoot_inner src tr level n i hashes = Throw e → e = TypeError.
Proof.
  revert i hashes. induction n as [| n IH]; intros i hashes; [done |].
  cbn [getRoot_inner].
  destruct (toString (if (i * 2 <? filled tr)%nat then _ else _))
    as [l | e'] eqn:Hl; cbn [mbind result_bind].
  2:{ intros [= <-]. by eapply toString_throws. }
  destruct (toString (if (i * 2 + 1 <? filled tr)%nat then _ else _))
    as [r | e'] eqn:Hr; cbn [mbind result_bind].
  2:{ intros [= <-]. by eapply toString_throws. }
  apply IH.
Qed.

Lemma getRoot_outer_throws src tr n level hashes e :
  getRoot_outer src tr n level hashes = Throw e → e = TypeError.
Proof.
  revert level hashes. induction n as [| n IH]; intros level hashes; [done |].
  cbn [getRoot_outer].
  destruct (getRoot_inner _ _ _ _ _ _) as [hashes' | e'] eqn:Hin;
    cbn [mbind result_bind].
  - apply IH.
  - intros [= <-]. by eapply getRoot_inner_throws.
Qed.

Lemma getRoot_throws src tr e : getRoot src tr = Throw e → e = TypeError.
Proof.
  unfold getRoot. destruct (decide _).
  - destruct src; [done |].
    destruct (toString _) as [z | e'] eqn:Hz; cbn [mbind result_bind]; [done |].
    intros [= <-]. by eapply toString_throws.
  - destruct (getRoot_outer _ _ _ _ _) as [hashes | e'] eqn:Hout;
      cbn [mbind result_bind].
    + destruct (toString _) as [z | e''] eqn:Hz; cbn [mbind result_bind]; [done |].
      intros [= <-]. by eapply toString_throws.
    + intros [= <-]. by eapply getRoot_outer_throws.
Qed.

Lemma generateProof_throws src tr index e :
  generateProof src tr index = Throw e →
  (e = UnknownLeaf ∧ (filled tr ≤ index)%nat)
  ∨ (e = TypeError ∧ (index < filled tr)%nat).
Proof.
  unfold generateProof. destruct (Nat.leb_spec (filled tr) index).
  - intros [= <-]. by left.
  - intros Hloop. right. split; [| done]. by eapply generateProof_loop_throws.
Qed.

(** The tree after a run of [insert] calls on values as they are passed,
    the refused calls included. *)
Definition insertValues {C : Untyped.Conversion} (tr : t) (vs : list Value) : t :=
  foldl (λ tr v, (Untyped.insert tr v).1) tr vs.

(** On a value that converts, [insert] is [insert] on the number; on one
    that does not, it changes nothing. *)
Lemma insert_value {C : Untyped.Conversion} (tr : t) (v : Value) :
  (∃ c, Untyped.BigInt v = Ok c ∧ Untyped.insert tr v = insert tr c)
  ∨ (Untyped.insert tr v).1 = tr.
Proof.
  unfold Untyped.insert, insert.
  destruct (capacity tr <=? filled tr)%nat; [by right |].
  destruct (Untyped.BigInt v) as [c | e]; [left; by exists c | by right].
Qed.

(** The tree of numbers is the tree of values at BigInts. *)
Lemma insert_VBigInt {C : Untyped.Conversion} (tr : t) (c : Z) :
  Untyped.insert tr (VBigInt c) = insert tr c.
Proof. unfold Untyped.insert. by rewrite Untyped.BigInt_VBigInt. Qed.

Lemma insertValues_reachable {C : Untyped.Conversion} (tr : t) (vs : list Value) :
  wf tr → zero_above tr →
  wf (insertValues tr vs) ∧ zero_above (insertValues tr vs)
  ∧ levels (insertValues tr vs) = levels tr.
Proof.
  revert tr. induction vs as [| v vs IH]; intros tr Hwf Hz; [done |].
  cbn [insertValues foldl]. fold (insertValues (Untyped.insert tr v).1 vs).
  destruct (insert_value tr v) as [(c & _ & ->) | ->]; [| by apply IH].
  destruct (IH (insert tr c).1) as (Hwf' & Hz' & Hlev');
    [by apply wf_insert | by apply zero_above_insert |].
  split_and!; [done | done |]. by rewrite Hlev', insert_levels.
Qed.

(** X22. The errors of the tree, for whatever values are passed as
    commitments.  On a tree built by the constructor and any calls of
    [insert], [insert] throws 'Tree is full' exactly when the tree is full,
    whatever the commitment, and on a tree with room exactly what
    [BigInt(commitment)] throws; a call that throws leaves the tree as it
    was.  [getRoot] throws nothing but a [TypeError]: never in the
    TypeScript file, and in the JavaScript file exactly when the tree is
    neither empty nor full. *)
Theorem tree_errors {C : Untyped.Conversion} (src : Source) (D : nat)
    (vs : list Value) (commitment : Value) (e : Error) :
  let tr := insertValues (new D) vs in
  ((Untyped.insert tr commitment).2 = Throw e ↔
     ((capacity tr ≤ filled tr)%nat ∧ e = TreeFull)
     ∨ ((filled tr < capacity tr)%nat ∧ Untyped.BigInt commitment = Throw e))
  ∧ ((Untyped.insert tr commitment).2 = Throw e →
     (Untyped.insert tr commitment).1 = tr)
  ∧ (getRoot src tr = Throw e → e = TypeError)
  ∧ getRoot merkleTree_ts tr ≠ Throw e
  ∧ (getRoot merkleTree_js tr = Throw TypeError ↔
     (0 < filled tr)%nat ∧ (filled tr < capacity tr)%nat).
Proof.
  intros tr.
  destruct (insertValues_reachable (new D) vs (wf_new D) (zero_above_new D))
    as (Hwf & Hz & _).
  fold tr in Hwf, Hz. clearbody tr.
  split_and!.
  - unfold Untyped.insert.
    destruct (Nat.leb_spec (capacity tr) (filled tr)) as [Hfull | Hroom]; simpl.
    + split.
      * intros [= <-]. by left.
      * intros [[_ ->] | [? _]]; [done | lia].
    + destruct (Untyped.BigInt commitment) as [c | e']; simpl.
      * split; [done |]. intros [[? _] | [_ ?]]; [lia | done].
      * split.
        -- intros [= <-]. by right.
        -- intros [[? _] | [_ [= <-]]]; [lia | done].
  - unfold Untyped.insert.
    destruct (capacity tr <=? filled tr)%nat; [done |].
    by destruct (Untyped.BigInt commitment).
  - apply getRoot_throws.
  - rewrite getRoot_nodeAt by (done || by left). done.
  - rewrite (getRoot_js_cases tr Hwf Hz).
    destruct (decide (filled tr = 0%nat)) as [Hempty | Hsome].
    { split; [done | lia]. }
    destruct (decide (filled tr < capacity tr)%nat) as [Hroom | Hfull].
    + split; [intros _; lia | done].
    + split; [done | lia].
Qed.

End WithHash.

(** Three insertions into a tree of two slots holding nothing yet. *)
Lemma insert_is_append_only_witness :
  wf (H := toyPoseidon) (new (H := toyPoseidon) 1)
  ∧ filled (insertAll (new (H := toyPoseidon) 1) [5; 6; 7]) = 2%nat.
Proof.
  split; [apply (wf_new (H := toyPoseidon)) |].
  exact (proj1 (insert_is_append_only (H := toyPoseidon) (new 1) [5; 6; 7]
                  (wf_new (H := toyPoseidon) 1))).
Defined.

(** The second of two leaves in a tree of depth two. *)
Lemma generateProof_shape_witness :
  let tr := insertAll (new (H := toyPoseidon) 2) [5; 6] in
  (1 < filled tr)%nat
  ∧ (generateProof merkleTree_js tr 1 = generateProof merkleTree_ts tr 1
     ∨ generateProof merkleTree_js tr 1 = Throw TypeError).
Proof.
  intros tr.
  assert (1 < filled tr)%nat as Hlt by (cbv; lia).
  split; [exact Hlt |].
  exact (proj1 (proj2 (generateProof_shape (H := toyPoseidon) 2 [5; 6] 1 Hlt))).
Defined.

End TreeExtras.

(** ** Further properties of the circuit and of the note secrets *)
Module CircuitExtras.
Import Circuit.

(** A value that is its own residue modulo the field prime. *)
Definition canonical (x : Z) : Prop := 0 ≤ x < p.

Section WithHash.
Context `{Poseidon}.

(** The fold of a Merkle path: at each level the running hash goes left of
    the path element when the index is 0 and right of it otherwise. *)
Fixpoint foldPath (currentHash : Z) (pathElements pathIndices : list Z) : Z :=
  match pathElements, pathIndices with
  | e :: es, b :: bs =>
    foldPath (if decide (b = 0) then poseidon [currentHash; e]
              else poseidon [e; currentHash]) es bs
  | _, _ => currentHash
  end.

Lemma currentHashes_foldPath cur elems bits :
  (∀ xs, canonical (poseidon xs)) →
  canonical cur → Forall canonical elems → Forall (λ b, b = 0 ∨ b = 1) bits →
  currentHashes cur elems bits = foldPath cur elems bits.
Proof.
  intros Hhash Hcur Helems. revert cur Hcur bits.
  induction Helems as [| e es He Hes IH]; intros cur Hcur bits Hbits; [done |].
  destruct Hbits as [| b bs Hb Hbs]; [done |].
  cbn [currentHashes foldPath].
  destruct Hb as [-> | ->].
  - rewrite MerkleTreeFacts.merkleLevelHasher_0 by done.
    rewrite decide_True by done. by apply IH.
  - rewrite MerkleTreeFacts.merkleLevelHasher_1 by done.
    rewrite decide_False by done. by apply IH.
Qed.

Lemma foldPath_canonical cur elems bits :
  (∀ xs, canonical (poseidon xs)) → canonical cur →
  canonical (foldPath cur elems bits).
Proof.
  intros Hhash. revert cur bits.
  induction elems as [| e es IH]; intros cur [| b bs] Hcur; try done.
  cbn [foldPath]. apply IH. destruct (decide (b = 0)); apply Hhash.
Qed.

Lemma binary_bits bits :
  Forall (λ b, b = 0 ∨ b = 1) bits → forallb binary bits = true.
Proof.
  intros Hbits. apply forallb_forall. intros b Hb.
  apply list_elem_of_In in Hb.
  by destruct (proj1 (Forall_forall _ _) Hbits b Hb) as [-> | ->].
Qed.

Lemma constrainEq_canonical a b :
  canonical a → canonical b → constrainEq a b = true ↔ a = b.
Proof.
  intros Ha Hb. unfold constrainEq.
  rewrite bool_decide_eq_true, !Z.mod_small by done. done.
Qed.

(** X12. The circuit on canonical inputs. When the hash yields field
    elements, the public and private inputs are field elements and the path
    indices are 0 or 1, [Withdraw(levels)] is satisfied exactly when there
    are [levels] path elements and [levels] path indices, the nullifier hash
    is the hash of the nullifier secret and 1, and the Merkle root is the
    fold of the commitment, the hash of amount, secret and nullifier secret,
    along the path, the running hash going left for index 0 and right for
    index 1. *)
Theorem Withdraw_on_canonical_inputs (levels : nat) (inp : Inputs) :
  (∀ xs, canonical (poseidon xs)) →
  canonical (nullifierHash inp) → canonical (merkleRoot inp) →
  Forall canonical (pathElements inp) →
  Forall (λ b, b = 0 ∨ b = 1) (pathIndices inp) →
  Withdraw levels inp = true ↔
    length (pathElements inp) = levels
    ∧ length (pathIndices inp) = levels
    ∧ nullifierHash inp = poseidon [nullifierSecret inp; 1]
    ∧ merkleRoot inp
      = foldPath (poseidon [amount inp; secret inp; nullifierSecret inp])
          (pathElements inp) (pathIndices inp).
Proof.
  intros Hhash Hnh Hroot Helems Hbits. unfold Withdraw.
  rewrite !andb_true_iff, !bool_decide_eq_true.
  rewrite (binary_bits _ Hbits).
  unfold calculatedNullifierHash, calculatedCommitment.
  rewrite currentHashes_foldPath by done.
  rewrite !constrainEq_canonical by (done || by apply foldPath_canonical).
  split.
  - intros [[[[Hle Hli] Hn] _] Hr]. by split_and!.
  - intros (Hle & Hli & Hn & Hr). by split_and!.
Qed.

End WithHash.

(** X13. A random field element is a field element: the number [randomField]
    makes of its 31 random bytes is below [2 ^ 248], hence below the field
    prime, so that hashing or feeding it to the circuit never reduces it. *)
Theorem randomField_canonical (randomBytes : list Byte.byte) :
  length randomBytes = 31%nat →
  0 ≤ Randomness.randomField randomBytes < 2 ^ 248
  ∧ canonical (MerkleTree.toField (Randomness.randomField randomBytes)).
Proof.
  intros Hlen.
  assert (∀ bs acc, 0 ≤ acc →
            0 ≤ foldl (λ acc b, 256 * acc + Z.of_N (Byte.to_N b)) acc bs
            < 256 ^ Z.of_nat (length bs) * (acc + 1)) as Hbound.
  { induction bs as [| b bs IH]; intros acc Hacc.
    - simpl. lia.
    - cbn [foldl length]. pose proof (Byte.to_N_bounded b).
      specialize (IH (256 * acc + Z.of_N (Byte.to_N b))).
      rewrite Nat2Z.inj_succ, Z.pow_succ_r by lia. nia. }
  specialize (Hbound randomBytes 0). rewrite Hlen in Hbound.
  unfold Randomness.randomField, MerkleTree.toField, canonical, p.
  change (256 ^ Z.of_nat 31 * (0 + 1)) with (2 ^ 248) in Hbound.
  split; [apply Hbound; lia |].
  assert (2 ^ 248 < 21888242871839275222246405745257275088548364400416034343698204186575808495617)
    by done.
  lia.
Qed.

Lemma toyPoseidon_canonical xs : canonical (toyPoseidon xs).
Proof. unfold canonical, toyPoseidon. by apply Z.mod_pos_bound. Qed.

(** A note of amount 3 with secrets 1 and 2, as the right child of a tree of
    depth one whose other leaf is 0. *)
Definition sample_inputs : Inputs :=
  MkInputs 1 2 [0] [1] (toyPoseidon [0; toyPoseidon [3; 1; 2]])
    (toyPoseidon [2; 1]) 500 3 1.

Lemma Withdraw_on_canonical_inputs_witness :
  (∀ xs, canonical (toyPoseidon xs))
  ∧ Forall (λ b, b = 0 ∨ b = 1) (pathIndices sample_inputs)
  ∧ (Withdraw (H := toyPoseidon) 1 sample_inputs = true ↔
       length (pathElements sample_inputs) = 1%nat
       ∧ length (pathIndices sample_inputs) = 1%nat
       ∧ nullifierHash sample_inputs = toyPoseidon [nullifierSecret sample_inputs; 1]
       ∧ merkleRoot sample_inputs
         = foldPath (H := toyPoseidon)
             (toyPoseidon [amount sample_inputs; secret sample_inputs;
                           nullifierSecret sample_inputs])
             (pathElements sample_inputs) (pathIndices sample_inputs)).
Proof.
  assert (Forall (λ b, b = 0 ∨ b = 1) (pathIndices sample_inputs)) as Hbits.
  { apply Forall_cons. split; [by right | apply Forall_nil_2]. }
  assert (Forall canonical (pathElements sample_inputs)) as Helems.
  { apply Forall_cons. split; [unfold canonical, p; lia | apply Forall_nil_2]. }
  split; [exact toyPoseidon_canonical |]. split; [exact Hbits |].
  exact (Withdraw_on_canonical_inputs (H := toyPoseidon) 1 sample_inputs
           toyPoseidon_canonical (toyPoseidon_canonical _)
           (toyPoseidon_canonical _) Helems Hbits).
Defined.

(** Thirty-one bytes, all [0xff]. *)
Lemma randomField_canonical_witness :
  length (replicate 31 Byte.xff) = 31%nat
  ∧ 0 ≤ Randomness.randomField (replicate 31 Byte.xff) < 2 ^ 248.
Proof.
  split; [reflexivity |].
  exact (proj1 (randomField_canonical (replicate 31 Byte.xff) eq_refl)).
Defined.

End CircuitExtras.

(** ** Further properties of the reference flow *)
Module FlowExtras.
Import Flow.

Section WithLibraries.
Context {P : Poseidon} {G : Groth16}.

(** X14. What [withdraw] does, in full. When it returns, the value passed
    as nullifier hash was not in the spent set, the verification key could
    be read and the verifier accepted; the call adds that value and nothing
    else to the spent set, leaves deposits and tree alone and returns
    entries 3 and 2 of the public signals.  When it throws, the state is
    what it was; it throws 'Deposit already withdrawn' exactly for a value
    that is in the spent set, and 'Invalid proof' exactly for one that is
    not and that the verifier refuses.  The value is taken as it comes:
    string, Number or BigInt, it is in the set only if that very value was
    added. *)
Theorem withdraw_effect (st : State) (vk : option VKey) (nh : Value) (proof : Proof)
    (ps : list Z) :
  match withdraw st vk nh proof ps with
  | (st', Ok out) =>
      (nh ∉ spentNullifiers st)
      ∧ (∃ k, vk = Some k ∧ groth16_verify k ps proof = true)
      ∧ spentNullifiers st' = {[ nh ]} ∪ spentNullifiers st
      ∧ deposits st' = deposits st
      ∧ merkleTree st' = merkleTree st
      ∧ out = (ps !! 3%nat, ps !! 2%nat)
  | (st', Throw e) =>
      st' = st
      ∧ ((e = NullifierSpent) ↔ (nh ∈ spentNullifiers st))
      ∧ ((e = InvalidProof) ↔
         ((nh ∉ spentNullifiers st)
          ∧ ∃ k, vk = Some k ∧ groth16_verify k ps proof = false))
  end.
Proof.
  unfold withdraw.
  destruct (decide (nh ∈ spentNullifiers st)) as [Hin | Hout].
  { split_and!; [done | done |]. split; [done | by intros [? _]]. }
  destruct vk as [k |].
  2:{ split_and!; [done | |].
      - split; [done | by intros ?].
      - split; [done | by intros (_ & ? & ? & _)]. }
  destruct (groth16_verify k ps proof) eqn:Hv; simpl.
  - split_and!; try done. by exists k.
  - split_and!; [done | |].
    + split; [done | by intros ?].
    + split; [| done]. intros _. split; [done |]. by exists k.
Qed.

Lemma withdraw_accepts st k nh proof ps :
  groth16_verify k ps proof = true → nh ∉ spentNullifiers st →
  withdraw st (Some k) nh proof ps =
    (MkState (deposits st) ({[ nh ]} ∪ spentNullifiers st) (merkleTree st),
     Ok (ps !! 3%nat, ps !! 2%nat)).
Proof.
  intros Hv Hnh. unfold withdraw. rewrite decide_False by done. by rewrite Hv.
Qed.

(** X15. [withdraw] never compares its [nullifierHash] argument with the
    public signals: a proof and public signals that the verifier accepts go
    through once for every nullifier hash they are presented with.  Under
    two different unspent nullifier hashes the same proof is paid out
    twice. *)
Theorem proof_replayed_under_another_nullifier (st : State) (k : VKey)
    (nh1 nh2 : Value) (proof : Proof) (ps : list Z) :
  groth16_verify k ps proof = true →
  nh1 ∉ spentNullifiers st → nh2 ∉ spentNullifiers st → nh1 ≠ nh2 →
  ∃ st1 st2,
    withdraw st (Some k) nh1 proof ps = (st1, Ok (ps !! 3%nat, ps !! 2%nat))
    ∧ withdraw st1 (Some k) nh2 proof ps = (st2, Ok (ps !! 3%nat, ps !! 2%nat))
    ∧ spentNullifiers st2 = {[ nh1; nh2 ]} ∪ spentNullifiers st.
Proof.
  intros Hv H1 H2 Hne.
  rewrite (withdraw_accepts st k nh1 proof ps Hv H1).
  eexists _, _. split; [done |].
  rewrite withdraw_accepts; [| done |].
  2:{ simpl. rewrite elem_of_union, elem_of_singleton. by intros [? | ?]. }
  split; [done |]. simpl.
  by rewrite (union_comm_L {[ nh1 ]} {[ nh2 ]}), (assoc_L (∪)).
Qed.

(** The commitments on file and the nullifier hashes spent are kept. *)
Lemma step_deposits st op c :
  is_Some (deposits st !! c) → is_Some (deposits (step st op) !! c).
Proof.
  intros Hc. destruct op as [| rnd now amt user | | vk nh proof ps]; simpl; try done.
  - unfold deposit. destruct (merkleTree st) as [tr |]; [| done].
    destruct (MerkleTree.insert tr _) as [tr' [idx | e]]; simpl; [| done].
    destruct (decide (MerkleTree.generateCommitment amt rnd.1 rnd.2 = c)) as [-> | Hne].
    + by rewrite lookup_insert_eq.
    + by rewrite lookup_insert_ne.
  - unfold withdraw. destruct (decide _); [done |].
    destruct vk; [| done]. by destruct (groth16_verify _ _ _).
Qed.

(** X16. The module state only grows: over any sequence of calls of the
    flow, [initialize] included, no commitment leaves [deposits] and no
    nullifier hash leaves [spentNullifiers]. *)
Theorem flow_state_only_grows (st : State) (ops : list Op) :
  dom (deposits st) ⊆ dom (deposits (run st ops))
  ∧ spentNullifiers st ⊆ spentNullifiers (run st ops).
Proof.
  split; [| apply FlowFacts.run_spentNullifiers].
  revert st. induction ops as [| op ops IH]; intros st; [done |].
  simpl. etrans; [| apply IH].
  intros c Hc. apply elem_of_dom. apply step_deposits. by apply elem_of_dom.
Qed.

(** [Flow.deposit] on an amount that is a number: what it returns, and the
    two ways it throws. *)
Lemma deposit_cases (st : State) (rnd : Z * Z) (now amount userAddress : Z) :
  match deposit st rnd now amount userAddress with
  | (st', Ok data) =>
      ∃ tr, merkleTree st = Some tr
        ∧ (MerkleTree.filled tr < MerkleTree.capacity tr)%nat
        ∧ dd_index data = MerkleTree.filled tr
        ∧ dd_commitment data = MerkleTree.generateCommitment amount rnd.1 rnd.2
        ∧ dd_nullifierHash data = MerkleTree.generateNullifierHash rnd.2
        ∧ spentNullifiers st' = spentNullifiers st
  | (st', Throw e) =>
      st' = st
      ∧ ((e = TypeError ∧ merkleTree st = None)
         ∨ (e = TreeFull ∧ ∃ tr, merkleTree st = Some tr
              ∧ (MerkleTree.capacity tr ≤ MerkleTree.filled tr)%nat))
  end.
Proof.
  unfold deposit. destruct st as [ds spent [tr |]]; simpl; [| by split; [| left]].
  destruct (decide (MerkleTree.filled tr < MerkleTree.capacity tr)%nat) as [Hroom | Hfull].
  - rewrite MerkleTreeFacts.insert_room by done. exists tr. by split_and!.
  - rewrite MerkleTreeFacts.insert_full by lia. split; [done |].
    right. split; [done |]. exists tr. split; [done | lia].
Qed.

(** X17. What [deposit] does when it fails and what it returns when it does
    not, for whatever value is passed as amount.  If [BigInt] refuses the
    amount, [deposit] throws the exception of the conversion, whether or not
    [initialize] has run.  For an amount that converts, it throws a
    [TypeError] exactly when [initialize] has not run and 'Tree is full'
    exactly when the tree has no slot left.  Whenever it throws, the three
    module variables are what they were.  When it returns, the amount
    converted, the tree had room, the index returned is the old fill
    pointer, the commitment returned is the hash of the converted amount and
    the two draws, the nullifier hash returned is the hash of the second
    draw and 1, and the spent set is untouched. *)
Theorem deposit_effect {C : Untyped.Conversion} (st : State) (rnd : Z * Z)
    (now : Z) (amount : Value) (userAddress : Z) :
  match Untyped.deposit st rnd now amount userAddress with
  | (st', Ok data) =>
      ∃ a tr, Untyped.toField amount = Ok a
        ∧ merkleTree st = Some tr
        ∧ (MerkleTree.filled tr < MerkleTree.capacity tr)%nat
        ∧ dd_index data = MerkleTree.filled tr
        ∧ dd_commitment data = MerkleTree.generateCommitment a rnd.1 rnd.2
        ∧ dd_nullifierHash data = MerkleTree.generateNullifierHash rnd.2
        ∧ spentNullifiers st' = spentNullifiers st
  | (st', Throw e) =>
      st' = st
      ∧ (Untyped.toField amount = Throw e
         ∨ ∃ a, Untyped.toField amount = Ok a
             ∧ ((e = TypeError ∧ merkleTree st = None)
                ∨ (e = TreeFull ∧ ∃ tr, merkleTree st = Some tr
                     ∧ (MerkleTree.capacity tr ≤ MerkleTree.filled tr)%nat)))
  end.
Proof.
  unfold Untyped.deposit.
  destruct (Untyped.toField amount) as [a | e] eqn:Hamount; [| by split; [| left]].
  pose proof (deposit_cases st rnd now a userAddress) as Hcases.
  destruct (deposit st rnd now a userAddress) as [st' [data | e]].
  - destruct Hcases as (tr & Hcases). by exists a, tr.
  - destruct Hcases as [-> Hcases]. split; [done |]. right. by exists a.
Qed.

(** The tree of the flow, once there is one: built by the constructor for
    depth 20 and by [insert]. *)
Definition tree_ok (st : State) : Prop :=
  ∀ tr, merkleTree st = Some tr →
    MerkleTreeFacts.wf tr ∧ TreeExtras.zero_above tr ∧ MerkleTree.levels tr = 20%nat.

Lemma tree_ok_initial : tree_ok initial.
Proof. by intros tr. Qed.

Lemma tree_ok_step st op : tree_ok st → tree_ok (step st op).
Proof.
  intros Hok. destruct op as [| rnd now amt user | | vk nh proof ps]; simpl; try done.
  - intros tr [= <-]. split_and!;
      [apply MerkleTreeFacts.wf_new | apply TreeExtras.zero_above_new | done].
  - unfold deposit. destruct (merkleTree st) as [tr |] eqn:Htr; [| done].
    destruct (Hok tr Htr) as (Hwf & Hz & Hlev).
    pose proof (MerkleTreeFacts.wf_insert tr
                  (MerkleTree.generateCommitment amt rnd.1 rnd.2) Hwf) as Hwf'.
    pose proof (TreeExtras.zero_above_insert tr
                  (MerkleTree.generateCommitment amt rnd.1 rnd.2) Hz) as Hz'.
    pose proof (TreeExtras.insert_levels tr
                  (MerkleTree.generateCommitment amt rnd.1 rnd.2)) as Hlev'.
    destruct (MerkleTree.insert tr _) as [tr' [idx | e]]; simpl in *;
      intros ? [= <-]; split_and!; first [done | congruence].
  - unfold withdraw. destruct (decide _); [done |].
    destruct vk; [| done]. by destruct (groth16_verify _ _ _).
Qed.

Lemma tree_ok_run st ops : tree_ok st → tree_ok (run st ops).
Proof.
  revert st. induction ops as [| op ops IH]; intros st Hok; [done |].
  simpl. apply IH. by apply tree_ok_step.
Qed.

(** X18. In the flow as written, which loads the JavaScript tree,
    [generateWithdrawalProof] yields circuit inputs only from a full tree: in
    every state the flow can reach from its start in which the tree, if
    there is one, has a free slot left among its [2 ^ 20], the call throws,
    whatever note it is asked about.  For a note that is on file, whose
    nullifier hash is not in the spent set and whose index is a filled slot,
    what it throws is a [TypeError], out of the tree. *)
Theorem generateWithdrawalProof_needs_full_tree (ops : list Op) (written : bool)
    (amount secret nullifierSecret recipient externalNullifier : Z) (index : nat) :
  (∀ tr, merkleTree (run initial ops) = Some tr →
         (MerkleTree.filled tr < MerkleTree.capacity tr)%nat) →
  (∃ e, generateWithdrawalProof (run initial ops) written amount secret
          nullifierSecret recipient externalNullifier index = Throw e)
  ∧ (∀ tr, merkleTree (run initial ops) = Some tr →
       is_Some (deposits (run initial ops)
                  !! MerkleTree.generateCommitment amount secret nullifierSecret) →
       decimal (MerkleTree.generateNullifierHash nullifierSecret)
         ∉ spentNullifiers (run initial ops) →
       (index < MerkleTree.filled tr)%nat →
       generateWithdrawalProof (run initial ops) written amount secret
         nullifierSecret recipient externalNullifier index = Throw TypeError).
Proof.
  pose proof (tree_ok_run initial ops tree_ok_initial) as Hok.
  intros Hroom.
  assert (∀ tr, merkleTree (run initial ops) = Some tr →
            (index < MerkleTree.filled tr)%nat →
            (x ← MerkleTree.generateProof src tr index;
             let '(pathElements, pathIndices) := x in
             merkleRoot ← MerkleTree.getRoot src tr;
             if written then
               Ok (MkCircuitInputs secret nullifierSecret pathElements pathIndices
                     merkleRoot (MerkleTree.generateNullifierHash nullifierSecret)
                     recipient amount externalNullifier)
             else Throw IOError) = Throw TypeError) as Htree.
  { intros tr Htr Hindex.
    destruct (Hok tr Htr) as (Hwf & Hz & Hlev). specialize (Hroom tr Htr).
    unfold src.
    destruct (MerkleTree.generateProof MerkleTree.merkleTree_js tr index)
      as [[elems bits] | e] eqn:Hproof; cbn [mbind result_bind].
    - rewrite (TreeExtras.getRoot_js_cases tr Hwf Hz).
      rewrite decide_False by lia. by rewrite decide_True by done.
    - apply TreeExtras.generateProof_throws in Hproof as [[_ ?] | [-> _]];
        [lia | done]. }
  split.
  - unfold generateWithdrawalProof.
    destruct (deposits _ !! _); [| by eexists].
    destruct (decide _); [by eexists |].
    destruct (merkleTree (run initial ops)) as [tr |] eqn:Htr; [| by eexists].
    destruct (decide (index < MerkleTree.filled tr)%nat) as [Hindex | Hindex].
    + rewrite (Htree tr eq_refl Hindex). by eexists.
    + rewrite MerkleTreeFacts.generateProof_UnknownLeaf by lia. by eexists.
  - intros tr Htr [info Hinfo] Hunspent Hindex.
    unfold generateWithdrawalProof.
    rewrite Hinfo, decide_False, Htr by done.
    exact (Htree tr Htr Hindex).
Qed.

(** What an entry of [deposits] says, checked against the tree. *)
Definition entry_ok (st : State) (c : Z) (info : DepositInfo) : Prop :=
  c = MerkleTree.generateCommitment (amount info) (secret info) (nullifierSecret info)
  ∧ nullifierHash info = MerkleTree.generateNullifierHash (nullifierSecret info)
  ∧ ∃ tr, merkleTree st = Some tr
      ∧ (index info < MerkleTree.filled tr)%nat
      ∧ MerkleTree.leaves tr !! index info = Some c.

Definition entries_ok (st : State) : Prop :=
  ∀ c info, deposits st !! c = Some info → entry_ok st c info.

Lemma entries_ok_step st op :
  op ≠ Initialize → tree_ok st → entries_ok st → entries_ok (step st op).
Proof.
  intros Hop Htree Hok.
  destruct op as [| rnd now amt user | | vk nh proof ps]; simpl; try done.
  - unfold deposit. destruct (merkleTree st) as [tr |] eqn:Htr; [| done].
    destruct (Htree tr Htr) as (Hwf & _ & _).
    destruct (decide (MerkleTree.filled tr < MerkleTree.capacity tr)%nat)
      as [Hroom | Hfull].
    + rewrite MerkleTreeFacts.insert_room by done. simpl.
      intros c info Hc. simpl in Hc.
      destruct (decide (MerkleTree.generateCommitment amt rnd.1 rnd.2 = c))
        as [<- | Hne].
      * rewrite lookup_insert_eq in Hc. injection Hc as <-.
        split_and!; [done | done |]. eexists. split; [done |].
        simpl. split; [lia |].
        apply list_lookup_insert_eq.
        rewrite (MerkleTreeFacts.wf_leaves _ Hwf). done.
      * rewrite lookup_insert_ne in Hc by done.
        destruct (Hok c info Hc) as (Hcm & Hnh & tr0 & Htr0 & Hidx & Hleaf).
        rewrite Htr in Htr0. injection Htr0 as <-.
        split_and!; [done | done |]. eexists. split; [done |].
        simpl. split; [lia |].
        rewrite list_lookup_insert_ne by lia. done.
    + rewrite MerkleTreeFacts.insert_full by lia. simpl.
      intros c info Hc. simpl in Hc.
      destruct (Hok c info Hc) as (Hcm & Hnh & tr0 & Htr0 & Hidx & Hleaf).
      rewrite Htr in Htr0. injection Htr0 as <-.
      split_and!; [done | done |]. by exists tr.
  - unfold withdraw. destruct (decide _); [done |].
    destruct vk; [| done]. by destruct (groth16_verify _ _ _).
Qed.

Lemma entries_ok_run st ops :
  Forall (λ op, op ≠ Initialize) ops →
  tree_ok st → entries_ok st → entries_ok (run st ops).
Proof.
  intros Hops. revert st.
  induction Hops as [| op ops Hop Hops IH]; intros st Htree Hok; [done |].
  simpl. apply IH; [by apply tree_ok_step | by apply entries_ok_step].
Qed.

(** X19. The deposit store and the tree agree. In every state reached from
    the start of the flow by one [initialize] followed by any calls other
    than [initialize], each entry of [deposits] is filed under the hash of
    its own amount, secret and nullifier secret, carries the nullifier hash
    of its nullifier secret, and its index is a filled slot of the tree that
    holds that very commitment. *)
Theorem deposits_point_into_tree (ops : list Op) (c : Z) (info : DepositInfo) :
  Forall (λ op, op ≠ Initialize) ops →
  deposits (run initial (Initialize :: ops)) !! c = Some info →
  c = MerkleTree.generateCommitment (amount info) (secret info) (nullifierSecret info)
  ∧ nullifierHash info = MerkleTree.generateNullifierHash (nullifierSecret info)
  ∧ ∃ tr, merkleTree (run initial (Initialize :: ops)) = Some tr
      ∧ (index info < MerkleTree.filled tr)%nat
      ∧ MerkleTree.leaves tr !! index info = Some c.
Proof.
  intros Hops Hc.
  apply (entries_ok_run (step initial Initialize) ops Hops); [| | done].
  - apply tree_ok_step, tree_ok_initial.
  - intros c' info' Hc'. cbn in Hc'. by rewrite lookup_empty in Hc'.
Qed.

(** X20. A second [initialize] orphans the notes on file: it replaces the
    tree by an empty one and keeps [deposits], so that afterwards
    [generateWithdrawalProof] throws 'Leaf does not exist' for every note on
    file whose nullifier hash, the string [generateNullifierHash] gives, is
    not in the spent set. *)
Theorem initialize_orphans_deposits (st : State) (written : bool)
    (amount secret nullifierSecret recipient externalNullifier : Z) (index : nat) :
  is_Some (deposits st
             !! MerkleTree.generateCommitment amount secret nullifierSecret) →
  decimal (MerkleTree.generateNullifierHash nullifierSecret) ∉ spentNullifiers st →
  deposits (initialize st).1 = deposits st
  ∧ generateWithdrawalProof (initialize st).1 written amount secret nullifierSecret
      recipient externalNullifier index = Throw UnknownLeaf.
Proof.
  intros [info Hinfo] Hunspent. split; [done |].
  unfold generateWithdrawalProof. cbn [initialize fst deposits spentNullifiers merkleTree].
  rewrite Hinfo, decide_False by done.
  by rewrite MerkleTreeFacts.generateProof_UnknownLeaf by (cbn; lia).
Qed.

(** [Flow.generateWithdrawalProof] on a note of numbers: when it throws
    'Deposit not found' and when 'Deposit already withdrawn'. *)
Lemma generateWithdrawalProof_DepositNotFound (st : State) (written : bool)
    (amount secret nullifierSecret recipient externalNullifier : Z) (index : nat) :
  generateWithdrawalProof st written amount secret nullifierSecret recipient
    externalNullifier index = Throw DepositNotFound
  ↔ deposits st !! MerkleTree.generateCommitment amount secret nullifierSecret = None.
Proof.
  unfold generateWithdrawalProof.
  destruct (deposits st !! _) as [info |]; [| done].
  split; [| done]. intros Hthrow.
  destruct (decide _); [done |].
  destruct (merkleTree st) as [tr |]; [| done].
  destruct (MerkleTree.generateProof src tr index) as [[elems bits] | e] eqn:Hproof.
  2:{ apply TreeExtras.generateProof_throws in Hproof as [[-> _] | [-> _]]; done. }
  cbn [mbind result_bind] in Hthrow.
  destruct (MerkleTree.getRoot src tr) as [root | e] eqn:Hroot.
  - cbn [mbind result_bind] in Hthrow. by destruct written.
  - apply TreeExtras.getRoot_throws in Hroot as ->. done.
Qed.

Lemma generateWithdrawalProof_NullifierSpent (st : State) (written : bool)
    (amount secret nullifierSecret recipient externalNullifier : Z) (index : nat) :
  generateWithdrawalProof st written amount secret nullifierSecret recipient
    externalNullifier index = Throw NullifierSpent
  ↔ is_Some (deposits st
               !! MerkleTree.generateCommitment amount secret nullifierSecret)
    ∧ decimal (MerkleTree.generateNullifierHash nullifierSecret) ∈ spentNullifiers st.
Proof.
  unfold generateWithdrawalProof.
  destruct (deposits st !! _) as [info |]; [| by split; [| intros [[? ?] _]]].
  destruct (decide _) as [Hspent | Hunspent]; [done |].
  split; [| by intros [_ ?]]. intros Hthrow.
  destruct (merkleTree st) as [tr |]; [| done].
  destruct (MerkleTree.generateProof src tr index) as [[elems bits] | e] eqn:Hproof.
  2:{ apply TreeExtras.generateProof_throws in Hproof as [[-> _] | [-> _]]; done. }
  cbn [mbind result_bind] in Hthrow.
  destruct (MerkleTree.getRoot src tr) as [root | e] eqn:Hroot.
  - cbn [mbind result_bind] in Hthrow. by destruct written.
  - apply TreeExtras.getRoot_throws in Hroot as ->. done.
Qed.

(** The flow on numbers is the flow on values at BigInts. *)
Lemma deposit_VBigInt {C : Untyped.Conversion} (st : State) (rnd : Z * Z)
    (now amount userAddress : Z) :
  Untyped.deposit st rnd now (VBigInt amount) userAddress
  = deposit st rnd now amount userAddress.
Proof.
  unfold Untyped.deposit, Untyped.toField. by rewrite Untyped.BigInt_VBigInt.
Qed.

Lemma generateWithdrawalProof_VBigInt {C : Untyped.Conversion} (st : State)
    (written : bool) (amount secret nullifierSecret recipient externalNullifier : Z)
    (index : nat) :
  Untyped.generateWithdrawalProof st written (VBigInt amount) (VBigInt secret)
    (VBigInt nullifierSecret) recipient externalNullifier index
  = generateWithdrawalProof st written amount secret nullifierSecret recipient
      externalNullifier index.
Proof.
  unfold Untyped.generateWithdrawalProof, Untyped.toField.
  by rewrite !Untyped.BigInt_VBigInt.
Qed.

(** A conversion never throws one of the errors the flow throws itself. *)
Lemma toField_throws {C : Untyped.Conversion} (v : Value) (message : string) :
  Untyped.toField v ≠ Throw (JsError message).
Proof.
  intros Hthrow. by destruct (Untyped.BigInt_throws v _ Hthrow) as [? | [? | ?]].
Qed.

(** X21. A note that is not on file or is spent yields no proof inputs,
    whatever values are passed for the note.  [generateWithdrawalProof]
    throws 'Deposit not found' exactly when amount, secret and nullifier
    secret convert and the commitment of the numbers is not in [deposits].
    It throws 'Deposit already withdrawn' exactly when they convert, the
    commitment is in [deposits] and the nullifier hash, as the string
    [generateNullifierHash] gives, is in the spent set: a hash that
    [withdraw] was given in another type or spelling is not seen.  Once
    [withdraw] has returned for that string, then after any further calls
    [generateWithdrawalProof] throws for every note with that nullifier
    secret: the exception of a conversion, 'Deposit not found' or 'Deposit
    already withdrawn'. *)
Theorem spent_note_yields_no_inputs {C : Untyped.Conversion} (st st1 : State)
    (vk : option VKey) (proof : Proof) (ps : list Z) out (ops : list Op)
    (written : bool) (amount secret nullifierSecret : Value)
    (recipient externalNullifier : Z) (index : nat) :
  let call st' :=
    Untyped.generateWithdrawalProof st' written amount secret nullifierSecret
      recipient externalNullifier index in
  let note a s n :=
    Untyped.toField amount = Ok a ∧ Untyped.toField secret = Ok s
    ∧ Untyped.toField nullifierSecret = Ok n in
  (call st = Throw DepositNotFound ↔
     ∃ a s n, note a s n
       ∧ deposits st !! MerkleTree.generateCommitment a s n = None)
  ∧ (call st = Throw NullifierSpent ↔
     ∃ a s n, note a s n
       ∧ is_Some (deposits st !! MerkleTree.generateCommitment a s n)
       ∧ decimal (MerkleTree.generateNullifierHash n) ∈ spentNullifiers st)
  ∧ (∀ n, Untyped.toField nullifierSecret = Ok n →
       withdraw st vk (decimal (MerkleTree.generateNullifierHash n)) proof ps
         = (st1, Ok out) →
       ∃ e, call (run st1 ops) = Throw e
         ∧ (e = DepositNotFound ∨ e = NullifierSpent
            ∨ Untyped.toField amount = Throw e
            ∨ Untyped.toField secret = Throw e)).
Proof.
  intros call note. subst call note. cbv beta.
  unfold Untyped.generateWithdrawalProof.
  destruct (Untyped.toField amount) as [a | ea] eqn:Ha; cbn [mbind result_bind].
  2:{ split_and!.
      - split; [intros [= ->]; by apply toField_throws in Ha
               | by intros (? & ? & ? & (? & _) & _)].
      - split; [intros [= ->]; by apply toField_throws in Ha
               | by intros (? & ? & ? & (? & _) & _)].
      - intros n _ _. exists ea. split; [done |]. by right; right; left. }
  destruct (Untyped.toField secret) as [s | es] eqn:Hs; cbn [mbind result_bind].
  2:{ split_and!.
      - split; [intros [= ->]; by apply toField_throws in Hs
               | by intros (? & ? & ? & (_ & ? & _) & _)].
      - split; [intros [= ->]; by apply toField_throws in Hs
               | by intros (? & ? & ? & (_ & ? & _) & _)].
      - intros n _ _. exists es. split; [done |]. by right; right; right. }
  destruct (Untyped.toField nullifierSecret) as [n | en] eqn:Hn;
    cbn [mbind result_bind].
  2:{ split_and!.
      - split; [intros [= ->]; by apply toField_throws in Hn
               | by intros (? & ? & ? & (_ & _ & ?) & _)].
      - split; [intros [= ->]; by apply toField_throws in Hn
               | by intros (? & ? & ? & (_ & _ & ?) & _)].
      - by intros n'. }
  split_and!.
  - rewrite generateWithdrawalProof_DepositNotFound. split.
    + intros Hnone. by exists a, s, n.
    + by intros (a' & s' & n' & ([= <-] & [= <-] & [= <-]) & Hnone).
  - rewrite generateWithdrawalProof_NullifierSpent. split.
    + intros [Hfile Hspent]. by exists a, s, n.
    + by intros (a' & s' & n' & ([= <-] & [= <-] & [= <-]) & Hfile & Hspent).
  - intros n' [= <-] Hfirst.
    destruct (deposits (run st1 ops) !! MerkleTree.generateCommitment a s n)
      as [info |] eqn:Hfile.
    + exists NullifierSpent. split; [| by right; left].
      apply generateWithdrawalProof_NullifierSpent. split; [by eexists |].
      apply (FlowFacts.run_spentNullifiers st1 ops).
      by eapply FlowFacts.withdraw_Ok_spends.
    + exists DepositNotFound. split; [| by left].
      by apply generateWithdrawalProof_DepositNotFound.
Qed.

(** The JavaScript [generateProof] on the leaf inserted last, when that leaf
    sits at an even position: its sibling is read off the zero table. *)
Lemma generateProof_js_last_even (tr : MerkleTree.t) (index : nat) :
  (0 < MerkleTree.levels tr)%nat → (index mod 2 = 0)%nat →
  (index + 1 = MerkleTree.filled tr)%nat →
  MerkleTree.generateProof MerkleTree.merkleTree_js tr index = Throw TypeError.
Proof.
  intros Hpos Heven Hlast. unfold MerkleTree.generateProof.
  destruct (Nat.leb_spec (MerkleTree.filled tr) index); [lia |].
  destruct (MerkleTree.levels tr) as [| n]; [lia |].
  cbn [MerkleTree.generateProof_loop]. rewrite !decide_True by done.
  destruct (Nat.ltb_spec (index + 1) (MerkleTree.filled tr)) as [? | _]; [lia |].
  reflexivity.
Qed.

(** X23. The demo never gets to the circuit inputs. Run from the start of
    the module, whatever the two draws and the clock, [runDemo] files the
    note of its deposit under its commitment, with index 0, and then ends
    in a [TypeError], thrown by [generateWithdrawalProof]; nothing is
    spent. *)
Theorem runDemo_stops_at_the_proof (rnd : Z * Z) (now : Z) (written : bool) :
  ∃ st,
    Demo.runDemo initial rnd now written = (st, Throw TypeError)
    ∧ deposits st !! MerkleTree.generateCommitment 1000000000000000000 rnd.1 rnd.2
      = Some (MkDepositInfo 0 1000000000000000000 rnd.1 rnd.2
                (MerkleTree.generateNullifierHash rnd.2) 123456789 now)
    ∧ spentNullifiers st = ∅
    ∧ generateWithdrawalProof st written 1000000000000000000 rnd.1 rnd.2
        123456789 1 0 = Throw TypeError.
Proof.
  assert (initialize initial = (FlowFacts.initialized, Ok ())) as Hinit.
  { unfold initialize, FlowFacts.initialized, src. cbv zeta.
    rewrite (TreeExtras.getRoot_js_cases _ (MerkleTreeFacts.wf_new 20)
               (TreeExtras.zero_above_new 20)).
    rewrite decide_True by exact eq_refl. reflexivity. }
  pose proof (FlowFacts.deposit_room FlowFacts.initialized rnd now
                1000000000000000000 123456789 (MerkleTree.new 20) eq_refl
                (FlowFacts.new_has_room 20)) as Hdep.
  cbv zeta in Hdep.
  assert (∀ st c info tr,
            st = MkState (<[c := info]> ∅) ∅ (Some tr) →
            c = MerkleTree.generateCommitment 1000000000000000000 rnd.1 rnd.2 →
            MerkleTree.generateProof MerkleTree.merkleTree_js tr 0 = Throw TypeError →
            generateWithdrawalProof st written 1000000000000000000 rnd.1 rnd.2
              123456789 1 0 = Throw TypeError) as Hgen.
  { intros st c info tr -> -> Hproof. unfold generateWithdrawalProof, src.
    cbn [deposits spentNullifiers merkleTree].
    rewrite lookup_insert_eq.
    rewrite decide_False by apply not_elem_of_empty.
    by rewrite Hproof. }
  assert (MerkleTree.generateProof MerkleTree.merkleTree_js
            (MerkleTree.insert (MerkleTree.new 20)
               (MerkleTree.generateCommitment 1000000000000000000 rnd.1 rnd.2)).1 0
          = Throw TypeError) as Hproof.
  { rewrite (MerkleTreeFacts.insert_room _ _ (FlowFacts.new_has_room 20)).
    apply generateProof_js_last_even.
    - change (0 < 20)%nat. lia.
    - reflexivity.
    - reflexivity. }
  eexists. unfold Demo.runDemo. rewrite Hinit. cbv zeta. rewrite Hdep.
  cbn [dd_secret dd_nullifierSecret dd_index].
  change (MerkleTree.filled (MerkleTree.new 20)) with 0%nat.
  rewrite (Hgen _ _ _ _ eq_refl eq_refl Hproof).
  split_and!; [reflexivity | apply lookup_insert_eq | reflexivity |].
  exact (Hgen _ _ _ _ eq_refl eq_refl Hproof).
Qed.

End WithLibraries.

(** A deposit of the amount ['forty'] is refused by the conversion, with
    or without a tree; the amounts ['0x28'], ['40'] and [40] make the note
    that [40n] makes. *)
Example deposit_of_a_word :
  let st := FlowFacts.initialized (P := toyPoseidon) in
  Untyped.deposit (P := toyPoseidon) (C := Untyped.literals) initial (111, 222) 0
    (VString "forty") 7 = (initial, Throw SyntaxError)
  ∧ Untyped.deposit (P := toyPoseidon) (C := Untyped.literals) st (111, 222) 0
      (VString "forty") 7 = (st, Throw SyntaxError)
  ∧ Forall (λ amount,
              Untyped.deposit (P := toyPoseidon) (C := Untyped.literals) st
                (111, 222) 0 amount 7
              = deposit (P := toyPoseidon) st (111, 222) 0 40 7)
      [VString "0x28"; VString "40"; VNumber 40; VBigInt 40].
Proof.
  intros st. split; [reflexivity |]. split; [reflexivity |].
  repeat apply Forall_cons_2; [.. | apply Forall_nil_2]; reflexivity.
Qed.

(** One accepted proof presented under the nullifier hashes ['22'] and
    ['23']. *)
Lemma proof_replayed_under_another_nullifier_witness :
  groth16_verify (Groth16 := toyGroth16) () [11; 22; 500; 40; 1] true = true
  ∧ ∃ st1 st2,
      withdraw (G := toyGroth16) initial (Some ()) (VString "22") true
          [11; 22; 500; 40; 1]
        = (st1, Ok (Some 40, Some 500))
      ∧ withdraw (G := toyGroth16) st1 (Some ()) (VString "23") true
          [11; 22; 500; 40; 1]
        = (st2, Ok (Some 40, Some 500)).
Proof.
  split; [reflexivity |].
  destruct (proof_replayed_under_another_nullifier (G := toyGroth16) initial ()
              (VString "22") (VString "23") true [11; 22; 500; 40; 1] eq_refl
              (not_elem_of_empty _) (not_elem_of_empty _))
    as (st1 & st2 & H1 & H2 & _); [discriminate |].
  exists st1, st2. split; [exact H1 | exact H2].
Defined.

(** A first deposit of 40 for the user 7, with the draws 111 and 222, to
    follow [initialize]. *)
Definition first_deposit : list (Op (G := toyGroth16)) :=
  [Deposit (111, 222) 0 40 7].

Lemma first_deposit_state :
  run (P := toyPoseidon) (G := toyGroth16) initial (Initialize :: first_deposit)
  = MkState
      (<[MerkleTree.generateCommitment (H := toyPoseidon) 40 111 222 :=
           MkDepositInfo 0 40 111 222
             (MerkleTree.generateNullifierHash (H := toyPoseidon) 222) 7 0]> ∅)
      ∅
      (Some (MerkleTree.insert (MerkleTree.new (H := toyPoseidon) 20)
               (MerkleTree.generateCommitment (H := toyPoseidon) 40 111 222)).1).
Proof.
  unfold first_deposit. cbn [run foldl step].
  change (initialize (P := toyPoseidon) initial).1
    with (FlowFacts.initialized (P := toyPoseidon)).
  by rewrite (FlowFacts.deposit_room (P := toyPoseidon) FlowFacts.initialized
                (111, 222) 0 40 7 (MerkleTree.new 20) eq_refl
                (FlowFacts.new_has_room 20)).
Qed.

(** The nullifier hash of the note on file is spent as a BigInt: [withdraw]
    takes it, and [generateWithdrawalProof], which looks for the string, is
    not stopped by the spent set. *)
Example spent_as_a_BigInt_is_not_seen :
  let st := run (P := toyPoseidon) (G := toyGroth16) initial
              (Initialize :: first_deposit) in
  let nh := MerkleTree.generateNullifierHash (H := toyPoseidon) 222 in
  ∃ st1,
    withdraw (G := toyGroth16) st (Some ()) (VBigInt nh) true [11; nh; 7; 40; 1]
      = (st1, Ok (Some 40, Some 7))
    ∧ generateWithdrawalProof (P := toyPoseidon) st1 true 40 111 222 7 1 0
      ≠ Throw NullifierSpent.
Proof.
  intros st nh. subst st. rewrite first_deposit_state.
  eexists. split.
  - apply (withdraw_accepts (G := toyGroth16)); [reflexivity |].
    apply not_elem_of_empty.
  - rewrite generateWithdrawalProof_NullifierSpent. intros [_ Hspent].
    cbn [spentNullifiers] in Hspent.
    rewrite elem_of_union, elem_of_singleton, elem_of_empty in Hspent.
    by destruct Hspent.
Qed.

Lemma first_deposit_on_file :
  deposits (run (P := toyPoseidon) initial (Initialize :: first_deposit))
    !! MerkleTree.generateCommitment (H := toyPoseidon) 40 111 222
  = Some (MkDepositInfo 0 40 111 222
            (MerkleTree.generateNullifierHash (H := toyPoseidon) 222) 7 0).
Proof.
  unfold first_deposit. cbn [run foldl step].
  change (initialize (P := toyPoseidon) initial).1
    with (FlowFacts.initialized (P := toyPoseidon)).
  rewrite (FlowFacts.deposit_room (P := toyPoseidon) FlowFacts.initialized
             (111, 222) 0 40 7 (MerkleTree.new 20) eq_refl
             (FlowFacts.new_has_room 20)).
  cbn [fst deposits]. apply lookup_insert_eq.
Qed.

(** After [initialize] and a first deposit the tree holds one leaf of its
    [2 ^ 20]; asked about the note just deposited, [generateWithdrawalProof]
    gets past the two look-ups, reaches the tree and throws. *)
Lemma generateWithdrawalProof_needs_full_tree_witness :
  let st := run (P := toyPoseidon) (G := toyGroth16) initial
              (Initialize :: first_deposit) in
  is_Some (deposits st !! MerkleTree.generateCommitment (H := toyPoseidon) 40 111 222)
  ∧ (∀ tr, merkleTree st = Some tr →
           (MerkleTree.filled tr < MerkleTree.capacity tr)%nat)
  ∧ generateWithdrawalProof (P := toyPoseidon) st true 40 111 222 7 1 0
    = Throw TypeError.
Proof.
  intros st.
  pose proof first_deposit_state as Hst. fold st in Hst.
  assert (is_Some (deposits st
                     !! MerkleTree.generateCommitment (H := toyPoseidon) 40 111 222))
    as Hfile.
  { eexists. apply first_deposit_on_file. }
  assert (∀ tr, merkleTree st = Some tr →
            (MerkleTree.filled tr = 1)%nat
            ∧ (MerkleTree.filled tr < MerkleTree.capacity tr)%nat) as Htree.
  { assert (∀ D : nat, (0 < D)%nat → (1 < 2 ^ D)%nat) as Hpow
      by (intros D HD; apply Nat.pow_gt_1; lia).
    intros tr. rewrite Hst. cbn [merkleTree].
    rewrite (MerkleTreeFacts.insert_room _ _ (FlowFacts.new_has_room 20)).
    intros Htr. apply (inj Some) in Htr. rewrite <- Htr.
    split; [reflexivity |]. apply (Hpow 20%nat). apply Nat.lt_0_succ. }
  split; [exact Hfile |].
  split; [intros tr Htr; apply (Htree tr Htr) |].
  assert (∃ tr, merkleTree st = Some tr) as [tr Htr].
  { rewrite Hst. by eexists. }
  refine (proj2 (generateWithdrawalProof_needs_full_tree (P := toyPoseidon)
                   (G := toyGroth16) (Initialize :: first_deposit) true
                   40 111 222 7 1 0 _) tr Htr Hfile _ _).
  - intros tr' Htr'. exact (proj2 (Htree tr' Htr')).
  - change (decimal (MerkleTree.generateNullifierHash (H := toyPoseidon) 222)
              ∉ spentNullifiers st).
    rewrite Hst. apply not_elem_of_empty.
  - rewrite (proj1 (Htree tr Htr)). apply Nat.lt_0_succ.
Defined.

Lemma deposits_point_into_tree_witness :
  Forall (λ op, op ≠ Initialize) first_deposit
  ∧ MerkleTree.generateNullifierHash (H := toyPoseidon) 222
    = MerkleTree.generateNullifierHash (H := toyPoseidon) 222
  ∧ ∃ tr, merkleTree (run (P := toyPoseidon) initial (Initialize :: first_deposit))
            = Some tr
      ∧ (0 < MerkleTree.filled tr)%nat
      ∧ MerkleTree.leaves tr !! 0%nat
        = Some (MerkleTree.generateCommitment (H := toyPoseidon) 40 111 222).
Proof.
  assert (Forall (λ op, op ≠ Initialize) first_deposit) as Hops.
  { apply Forall_cons. split; [discriminate | apply Forall_nil_2]. }
  split; [exact Hops |].
  exact (proj2 (deposits_point_into_tree (P := toyPoseidon) (G := toyGroth16)
                  first_deposit _ _ Hops first_deposit_on_file)).
Defined.

Lemma initialize_orphans_deposits_witness :
  let st := run (P := toyPoseidon) initial (Initialize :: first_deposit) in
  is_Some (deposits st !! MerkleTree.generateCommitment (H := toyPoseidon) 40 111 222)
  ∧ generateWithdrawalProof (P := toyPoseidon) (initialize (P := toyPoseidon) st).1
      true 40 111 222 7 1 0 = Throw UnknownLeaf.
Proof.
  intros st.
  assert (is_Some (deposits st
                     !! MerkleTree.generateCommitment (H := toyPoseidon) 40 111 222))
    as Hfile.
  { eexists. apply first_deposit_on_file. }
  assert (decimal (MerkleTree.generateNullifierHash (H := toyPoseidon) 222)
            ∉ spentNullifiers st) as Hunspent.
  { apply (not_elem_of_weaken _ _ ∅); [apply not_elem_of_empty |].
    unfold st, first_deposit. cbn [run foldl step].
    change (initialize (P := toyPoseidon) initial).1
      with (FlowFacts.initialized (P := toyPoseidon)).
    rewrite (FlowFacts.deposit_room (P := toyPoseidon) FlowFacts.initialized
               (111, 222) 0 40 7 (MerkleTree.new 20) eq_refl
               (FlowFacts.new_has_room 20)).
    done. }
  split; [exact Hfile |].
  exact (proj2 (initialize_orphans_deposits (P := toyPoseidon)
                  st true 40 111 222 7 1 0 Hfile Hunspent)).
Defined.

End FlowExtras.
